(** * Verification of [notebooks/inundation/utilities.py]

    A shallow embedding of the longitude wrapping helpers
    ([wrap_lon180], [wrap_lon360]), of the spatial index construction
    ([make_tree]) and of the nearest water point search
    ([get_nearest_water]).

    Numbers.  Array elements are exact rationals ([Q]); the comparison and
    remainder operators are the mathematical ones, so rounding of binary
    floating point is outside the model.  Euclidean distances and standard
    deviations are square roots; they are carried as the rational under the
    root ([Root q] stands for the square root of [q]), which keeps every
    comparison of the source exact and executable.

    Objects.  NumPy arrays are mutable objects: the two wrapping functions
    are written in a state-and-exception monad over a store of arrays, with
    [copy], arithmetic and boolean indexing allocating new arrays and
    indexed assignment updating in place.  The functions that only read
    their arguments are written over array values. *)

From Stdlib Require Import QArith Qround Lqa Lia ZArith String OrderedTypeEx.
From stdpp Require Import base list sorting strings gmap.

(* ===================================================================== *)
(** * Part I. Definitions                                                *)
(* ===================================================================== *)

(** ** Exceptions *)

Inductive exn : Type :=
| ValueError (msg : string)
| IndexError (msg : string).

Inductive result (A : Type) : Type :=
| Ok (a : A)
| Raise (e : exn).
Arguments Ok {A} a.
Arguments Raise {A} e.

Definition rbind {A B} (m : result A) (f : A -> result B) : result B :=
  match m with
  | Ok a => f a
  | Raise e => Raise e
  end.

Notation "'let?' x ':=' m 'in' k" := (rbind m (fun x => k))
  (at level 10, x name, m at level 100, k at level 200).
Notation "'let?' ' p ':=' m 'in' k" := (rbind m (fun x => match x with p => k end))
  (at level 10, p pattern, m at level 100, k at level 200).

(** ** Rational arithmetic as used by the source *)

Definition Qlt_bool (x y : Q) : bool := negb (Qle_bool y x).

(** Python's [x % m] on numbers: the remainder has the sign of [m]. *)
Definition Qmod (x m : Q) : Q := (x - m * inject_Z (Qfloor (x / m)))%Q.

(** ** Arrays and the store *)

Record ndarray : Type := NDArray { shape : list nat; data : list Q }.

Definition ndim (a : ndarray) : nat := length (shape a).
Definition ravel (a : ndarray) : list Q := data a.

(** [np.atleast_1d]: a scalar (0-d array) becomes a one element vector,
    anything else is returned as it is. *)
Definition atleast_1d (a : ndarray) : ndarray :=
  match shape a with
  | [] => NDArray [1] (data a)
  | _ => a
  end.

Definition arr_map (f : Q -> Q) (a : ndarray) : ndarray :=
  NDArray (shape a) (map f (data a)).

(** Boolean arrays are temporaries that are never updated nor shared; they
    are kept as plain values. *)
Definition mask := list bool.

Definition logical_or (m1 m2 : mask) : mask := zip_with orb m1 m2.
Definition logical_and (m1 m2 : mask) : mask := zip_with andb m1 m2.

(** [a[m]] with a boolean array [m]: the selected elements, in order. *)
Fixpoint select {A} (m : mask) (l : list A) : list A :=
  match m, l with
  | b :: m', x :: l' => if b then x :: select m' l' else select m' l'
  | _, _ => []
  end.

(** [a[m] = vs]: the selected positions receive the values of [vs] in
    order, the others keep theirs. *)
Fixpoint assign (m : mask) (l vs : list Q) : list Q :=
  match m, l with
  | b :: m', x :: l' =>
      if b then
        match vs with
        | v :: vs' => v :: assign m' l' vs'
        | [] => x :: assign m' l' []
        end
      else x :: assign m' l' vs
  | _, _ => l
  end.

(** [a[m] = c] with a scalar [c]. *)
Fixpoint assign_scalar (m : mask) (l : list Q) (c : Q) : list Q :=
  match m, l with
  | b :: m', x :: l' => (if b then c else x) :: assign_scalar m' l' c
  | _, _ => l
  end.

Abbreviation ref := nat (only parsing).
Abbreviation heap := (list ndarray) (only parsing).

(** Computations that read and update the store and may raise. *)
Definition M (A : Type) : Type := heap -> result (A * heap).

Definition ret {A} (a : A) : M A := fun h => Ok (a, h).
Definition bind {A B} (m : M A) (f : A -> M B) : M B :=
  fun h => match m h with
           | Ok (a, h') => f a h'
           | Raise e => Raise e
           end.
Definition throw {A} (e : exn) : M A := fun _ => Raise e.

Notation "'let!' x ':=' m 'in' k" := (bind m (fun x => k))
  (at level 10, x name, m at level 100, k at level 200).
Notation "'do!' m 'in' k" := (bind m (fun _ => k))
  (at level 10, m at level 100, k at level 200).

Definition deref (r : ref) : M ndarray :=
  fun h => match h !! r with
           | Some a => Ok (a, h)
           | None => Raise (ValueError "dangling reference")
           end.

Definition alloc (a : ndarray) : M ref :=
  fun h => Ok (length h, h ++ [a]).

Definition store (r : ref) (a : ndarray) : M unit :=
  fun h => Ok (tt, <[r := a]> h).

(** [np.atleast_1d(r).copy()] *)
Definition np_copy (r : ref) : M ref :=
  let! a := deref r in alloc (atleast_1d a).

(** [r < c], [r > c], [r == c]: new boolean arrays. *)
Definition np_lt (r : ref) (c : Q) : M mask :=
  let! a := deref r in ret (map (fun x => Qlt_bool x c) (data a)).
Definition np_gt (r : ref) (c : Q) : M mask :=
  let! a := deref r in ret (map (fun x => Qlt_bool c x) (data a)).
Definition np_eq (r : ref) (c : Q) : M mask :=
  let! a := deref r in ret (map (fun x => Qeq_bool x c) (data a)).

(** [r + c], [r - c], [r % c]: new arrays of the same shape. *)
Definition np_add (r : ref) (c : Q) : M ref :=
  let! a := deref r in alloc (arr_map (fun x => x + c)%Q a).
Definition np_sub (r : ref) (c : Q) : M ref :=
  let! a := deref r in alloc (arr_map (fun x => x - c)%Q a).
Definition np_mod (r : ref) (c : Q) : M ref :=
  let! a := deref r in alloc (arr_map (fun x => Qmod x c) a).

(** [r[m]]: boolean indexing copies the selected elements into a new
    one dimensional array. *)
Definition np_getitem (r : ref) (m : mask) : M ref :=
  let! a := deref r in
  let sel := select m (data a) in
  alloc (NDArray [length sel] sel).

(** [r[m] = c]: in place. *)
Definition np_setitem_scalar (r : ref) (m : mask) (c : Q) : M unit :=
  let! a := deref r in store r (NDArray (shape a) (assign_scalar m (data a) c)).

(** [r[m] = v] with an array [v]: in place; NumPy refuses a number of
    values that differs from the number of selected positions (a single
    value is broadcast). *)
Definition np_setitem (r : ref) (m : mask) (v : ref) : M unit :=
  let! a := deref r in
  let! vs := deref v in
  let n := length (select m (data a)) in
  if (length (data vs) =? n)%nat then
    store r (NDArray (shape a) (assign m (data a) (data vs)))
  else if (length (data vs) =? 1)%nat then
    store r (NDArray (shape a) (assign_scalar m (data a) (hd 0%Q (data vs))))
  else throw (ValueError "cannot assign input values to the selected output values").

(** ** [wrap_lon360] and [wrap_lon180] *)

Definition wrap_lon360 (lon : ref) : M ref :=
  let! lon := np_copy lon in
  let! positive := np_gt lon 0 in
  let! lon := np_mod lon 360 in
  let! zero := np_eq lon 0 in
  do! np_setitem_scalar lon (logical_and zero positive) 360 in
  ret lon.

Definition wrap_lon180 (lon : ref) : M ref :=
  let! lon := np_copy lon in
  let! below := np_lt lon (-180) in
  let! above := np_gt lon 180 in
  let angles := logical_or below above in
  let! sel := np_getitem lon angles in
  let! shifted := np_add sel 180 in
  let! wrapped := wrap_lon360 shifted in
  let! back := np_sub wrapped 180 in
  do! np_setitem lon angles back in
  ret lon.

(** Calling a store function on an array value: the argument is the only
    object of a fresh store and the returned object is read back. *)
Definition np_call (f : ref -> M ref) (a : ndarray) : result ndarray :=
  match f 0%nat [a] with
  | Ok (r, h) =>
      match h !! r with
      | Some b => Ok b
      | None => Raise (ValueError "dangling reference")
      end
  | Raise e => Raise e
  end.

(** The element functions that the two array functions compute. *)
Definition wrap360 (x : Q) : Q :=
  let m := Qmod x 360 in
  if Qeq_bool m 0 && Qlt_bool 0 x then 360%Q else m.

Definition wrap180 (x : Q) : Q :=
  if Qlt_bool x (-180) || Qlt_bool 180 x then (wrap360 (x + 180) - 180)%Q else x.

(** The closed interval that [wrap_lon180] maps into. *)
Definition in_lon180 (x : Q) : Prop := (-180 <= x <= 180)%Q.

(** The half-open interval. *)
Definition in_lon180_open (x : Q) : Prop := (-180 <= x < 180)%Q.

(** [len(a)] and the agreement of the data with the shape. *)
Definition np_len (a : ndarray) : nat := hd 0%nat (shape a).

Definition wf_array (a : ndarray) : Prop :=
  length (data a) = foldr Nat.mul 1%nat (shape a).

(** ** Square roots, infinity and not-a-number

    [Root q] is the square root of the non-negative rational [q]; [PInf]
    and [NaN] are the two special values that the libraries hand back
    (missing neighbours, the deviation of an empty series). *)

Inductive xreal : Type :=
| Root (q : Q)
| PInf
| NaN.

(** [x <= m] for a number [m]: for a root, [sqrt q <= m] says [0 <= m] and
    [q <= m^2]. *)
Definition xle_Q (x : xreal) (m : Q) : bool :=
  match x with
  | Root q => Qle_bool 0 m && Qle_bool q (m * m)
  | PInf => false
  | NaN => false
  end.

(** [x >= m]: for a root, [sqrt q >= m] says [m <= 0] or [m^2 <= q]. *)
Definition xge_Q (x : xreal) (m : Q) : bool :=
  match x with
  | Root q => Qle_bool m 0 || Qle_bool (m * m) q
  | PInf => true
  | NaN => false
  end.

(** The order of the extended values that distances take. *)
Definition xle (x y : xreal) : Prop :=
  match x, y with
  | Root p, Root q => (p <= q)%Q
  | Root _, PInf => True
  | PInf, PInf => True
  | _, _ => False
  end.

(** ** The spatial index (scipy's [KDTree])

    The index is used through its interface only: it is built from a list
    of points, [n] is the number of points, and [query] returns the [k]
    nearest points in ascending order of Euclidean distance, together with
    their positions in the list the index was built from; when there are
    fewer than [k] points the missing neighbours are reported with an
    infinite distance and the index [n].  The query is for one point and
    the model is that of a neighbour count of two or more, with arrays as
    results: for [k = 1] the library hands the two values back unboxed
    and the caller fails on them, where the model keeps arrays of one
    element.  Points at equal distance are listed in the order of the
    list, which the library does not promise. *)

Record KDTree : Type := MkKDTree { tree_data : list (Q * Q) }.

Definition tree_n (t : KDTree) : nat := length (tree_data t).

Definition sqdist (p q : Q * Q) : Q :=
  ((fst p - fst q) * (fst p - fst q) + (snd p - snd q) * (snd p - snd q))%Q.

Fixpoint insert_hit (e : Q * nat) (l : list (Q * nat)) : list (Q * nat) :=
  match l with
  | [] => [e]
  | e' :: l' => if Qle_bool (fst e) (fst e') then e :: l else e' :: insert_hit e l'
  end.

Definition sort_hits (l : list (Q * nat)) : list (Q * nat) :=
  foldr insert_hit [] l.

Definition all_hits (t : KDTree) (x : Q * Q) : list (Q * nat) :=
  sort_hits (imap (fun i p => (sqdist x p, i)) (tree_data t)).

Definition KDTree_query (t : KDTree) (x : Q * Q) (k : nat)
  : result (list xreal * list nat) :=
  if (k =? 0)%nat then
    Raise (ValueError "Requested 0 nearest neighbors; acceptable numbers are integers greater than or equal to one, or None")
  else
    let hits := take k (all_hits t x) in
    let missing := (k - length hits)%nat in
    Ok (map (fun h => Root (fst h)) hits ++ replicate missing PInf,
        map snd hits ++ replicate missing (tree_n t)).

(** ** Cubes (iris)

    A cube has a data array ([cshape], [cdata], row major) and coordinate
    arrays along its X and Y axes.  A data cell is a number, an invalid
    value (not-a-number or an infinity) or a masked value. *)

Inductive cell : Type :=
| Num (q : Q)
| Invalid
| Masked.

Record cube : Type := MkCube {
  cshape : list nat;
  cdata : list cell;
  coordX : ndarray;
  coordY : ndarray
}.

Definition cube_ndim (c : cube) : nat := length (cshape c).

Definition prod_list (l : list nat) : nat := foldr Nat.mul 1%nat l.

(** [np.meshgrid(lon, lat)] for two vectors: both results have shape
    [(len(lat), len(lon))]; every row of the first is [lon], every column
    of the second is [lat]. *)
Definition meshgrid (lon lat : ndarray) : ndarray * ndarray :=
  let nx := length (data lon) in
  let ny := length (data lat) in
  (NDArray [ny; nx] (mjoin (replicate ny (data lon))),
   NDArray [ny; nx] (mjoin (map (replicate nx) (data lat)))).

(** Under Python 2, for which the module was written, [zip] returns the
    list of pairs, cut at the shorter argument. *)
Definition py_zip {A B} (l1 : list A) (l2 : list B) : list (A * B) := zip l1 l2.

Definition make_tree (c : cube) : result (KDTree * ndarray * ndarray) :=
  let lon := coordX c in
  let lat := coordY c in
  let? lon := np_call wrap_lon180 lon in
  let '(lon, lat) :=
    if (ndim lon =? 1)%nat && (ndim lat =? 1)%nat && (cube_ndim c =? 3)%nat
    then meshgrid lon lat
    else (lon, lat) in
  let tree := MkKDTree (py_zip (ravel lon) (ravel lat)) in
  Ok (tree, lon, lat).

(** ** [get_nearest_water] *)

(** [np.unravel_index(indices, shp)]: one array of coordinates per
    dimension of [shp] (row major); an index outside the shape is
    refused. *)
Fixpoint unravel_one (n : nat) (shp : list nat) : list nat :=
  match shp with
  | [] => []
  | _ :: rest =>
      let s := prod_list rest in
      (n / s)%nat :: unravel_one (n mod s)%nat rest
  end.

Definition unravel_index (indices : list nat) (shp : list nat)
  : result (list (list nat)) :=
  if forallb (fun n => (n <? prod_list shp)%nat) indices then
    Ok (map (fun d => map (fun n => nth d (unravel_one n shp) 0%nat) indices)
            (seq 0 (length shp)))
  else Raise (ValueError "invalid entry in index array").

(** [i, j = t]: the tuple must have exactly two components. *)
Definition unpack2 {A} (t : list A) : result (A * A) :=
  match t with
  | [i; j] => Ok (i, j)
  | [] | [_] => Raise (ValueError "need more values to unpack")
  | _ => Raise (ValueError "too many values to unpack")
  end.

(** The time series of a cube at one cell, as its flattened data. *)
Definition series := list cell.

(** [cube[(slice(None),) + idx]] for a pair [idx]: the first dimension is
    kept whole and the next two are indexed, so the cube needs at least
    three dimensions; further dimensions are kept whole. *)
Definition cube_getitem (c : cube) (idx : nat * nat) : result series :=
  match cshape c with
  | nt :: d1 :: d2 :: inner =>
      let '(i, j) := idx in
      if (i <? d1)%nat && (j <? d2)%nat then
        let w := prod_list inner in
        Ok (mjoin (map (fun t => take w (drop (((t * d1 + i) * d2 + j) * w)%nat (cdata c)))
                       (seq 0 nt)))
      else Raise (IndexError "index out of bounds")
  | _ => Raise (IndexError "More slices requested than dimensions")
  end.

(** [ma.masked_invalid] masks the invalid values on top of those already
    masked; [filled] replaces what is masked. *)
Definition masked_invalid (s : list cell) : list (option Q) :=
  map (fun x => match x with Num q => Some q | Invalid | Masked => None end) s.

Definition filled (fill_value : Q) (s : list (option Q)) : list Q :=
  map (fun x => match x with Some q => q | None => fill_value end) s.

Definition Qsum (l : list Q) : Q := foldr Qplus 0%Q l.

Definition mean (l : list Q) : Q := (Qsum l / inject_Z (Z.of_nat (length l)))%Q.

Definition variance (l : list Q) : Q :=
  mean (map (fun x => (x - mean l) * (x - mean l))%Q l).

(** [arr.std()]: the root of the mean squared deviation; not-a-number for
    an empty array. *)
Definition np_std (l : list Q) : xreal :=
  match l with
  | [] => NaN
  | _ => Root (variance l)
  end.

(** The values of [series, dist, idx]; each is [None] until the loop
    assigns it. *)
Definition found : Type := (option series * option xreal * option (nat * nat))%type.

(** Lines 149 to 163: query, mask, translation of the flat identifiers. *)
Definition candidates (c : cube) (tree : KDTree) (xi yi : Q) (k : nat) (max_dist : Q)
  : result (list (xreal * (nat * nat))) :=
  let? '(distances, indices) := KDTree_query tree (xi, yi) k in
  if (length indices =? 0)%nat then Raise (ValueError "No data found.") else
  let mask : option mask := Some (map (fun d => xle_Q d max_dist) distances) in
  match mask with
  | None => Raise (ValueError "No data found for (%s,%s) using max_dist=%s.")
  | Some mask =>
      let distances := select mask distances in
      let indices := select mask indices in
      let? '(i, j) :=
        if (ndim (coordX c) =? 1)%nat && (cube_ndim c =? 2)%nat then
          Ok (indices, indices)
        else
          let? t := unravel_index indices (shape (coordX c)) in unpack2 t in
      Ok (py_zip distances (py_zip i j))
  end.

(** Lines 168 to 173: the loop, started with the values bound before it. *)
Fixpoint walk (c : cube) (min_var : Q) (cands : list (xreal * (nat * nat)))
    (cur : found) : result found :=
  match cands with
  | [] => Ok cur
  | (dist, idx) :: rest =>
      let? series := cube_getitem c idx in
      let arr := filled 0 (masked_invalid series) in
      if xge_Q (np_std arr) min_var then Ok (Some series, Some dist, Some idx)
      else walk c min_var rest (Some series, Some dist, Some idx)
  end.

Definition get_nearest_water (c : cube) (tree : KDTree) (xi yi : Q)
    (k : nat) (max_dist min_var : Q) : result found :=
  let? cands := candidates c tree xi yi k max_dist in
  walk c min_var cands (None, None, None).

(** The outcome of the test of the loop body at one cell: whether the
    deviation of the zero-filled series reaches [min_var]; nothing when the
    cell cannot be extracted. *)
Definition passes (c : cube) (min_var : Q) (idx : nat * nat) : option bool :=
  match cube_getitem c idx with
  | Ok s => Some (xge_Q (np_std (filled 0 (masked_invalid s))) min_var)
  | Raise _ => None
  end.

(** The orders in which hits and candidates are listed. *)
Definition hit_le (a b : Q * nat) : Prop := (fst a <= fst b)%Q.
Definition cand_le (a b : xreal * (nat * nat)) : Prop := xle (fst a) (fst b).

(** Grids with two dimensional coordinate arrays over a (time, row,
    column) cube, indexed by a tree with one point per mesh cell. *)
Definition mesh_cube (c : cube) (t : KDTree) : Prop :=
  exists nt ny nx : nat,
    cshape c = [nt; ny; nx]
    /\ shape (coordX c) = [ny; nx]
    /\ tree_n t = (ny * nx)%nat.

(** A series with zero in place of every invalid or masked value. *)
Definition zero_filled (s : series) : list Q :=
  map (fun x => match x with Num q => q | Invalid | Masked => 0%Q end) s.

(** The defaults of the keyword arguments. *)
Definition default_k : nat := 10.
Definition default_max_dist : Q := 0.04.
Definition default_min_var : Q := 0.01.

(** ** Sample data *)

Definition vec (l : list Q) : ndarray := NDArray [length l] l.

(** A curvilinear 2 x 2 grid with three time steps.  The series at the
    cells (0,0) and (1,1) are flat, the one at (1,0) is an invalid and a
    masked value around a zero, the one at (0,1) varies. *)
Definition sample_cube : cube :=
  MkCube [3; 2; 2]%nat
         [Num 1; Num 0; Invalid; Num 5;
          Num 1; Num 1; Num 0;   Num 5;
          Num 1; Num 2; Masked;  Num 5]%Q
         (NDArray [2; 2]%nat [0; 1; 0; 1]%Q)
         (NDArray [2; 2]%nat [0; 0; 1; 1]%Q).

Definition sample_tree : KDTree :=
  MkKDTree [(0, 0); (1, 0); (0, 1); (1, 1)]%Q.

(** A structured grid given by two coordinate vectors. *)
Definition sample_cube_1d : cube :=
  MkCube [3; 2; 2]%nat (cdata sample_cube) (vec [0; 1]%Q) (vec [0; 1]%Q).

(** An unstructured grid of two nodes with three time steps. *)
Definition sample_cube_nodes : cube :=
  MkCube [3; 2]%nat [Num 0; Num 1; Num 1; Num 1; Num 2; Num 1]%Q
         (vec [0; 1]%Q) (vec [0; 0]%Q).

Definition sample_tree_nodes : KDTree := MkKDTree [(0, 0); (1, 0)]%Q.

(** ** The helpers around the search

    The remaining functions of the module that work on plain Python values.
    Exceptions other than the two above are listed apart. *)

Inductive py_exn : Type :=
| KeyError (key : string)
| UnboundLocalError (name : string)
| StringIndexError.

Inductive outcome (A : Type) : Type :=
| Return (a : A)
| Throw (e : py_exn).
Arguments Return {A} a.
Arguments Throw {A} e.

(** *** [service_urls]

    A catalogue record lists references, each a dictionary with the keys
    ['scheme'] and ['url']; either value can be [None].  [records.items()]
    is the list of the (key, record) pairs in the order of the iteration. *)

Record reference : Type := MkReference {
  ref_scheme : option string;
  ref_url : option string
}.

Record csw_record : Type := MkRecord { references : list reference }.

Definition scheme_is (service_string : string) (d : reference) : bool :=
  match ref_scheme d with
  | Some s => String.eqb s service_string
  | None => false
  end.

(** [next((d['url'] for d in refs if d['scheme'] == service_string), None)] *)
Fixpoint next_url (service_string : string) (refs : list reference) : option string :=
  match refs with
  | [] => None
  | d :: rest =>
      if scheme_is service_string d then ref_url d
      else next_url service_string rest
  end.

Definition service_prefix : string := "urn:x-esri:specification:ServiceType:".

Definition service_urls (records : list (string * csw_record)) (service : string)
  : list string :=
  let service_string := String.append service_prefix service in
  foldl (fun urls kr =>
           let '(key, rec) := kr in
           let url := next_url service_string (references rec) in
           match url with
           | Some u => urls ++ [u]
           | None => urls
           end)
        [] records.

Definition default_service : string := "odp:url".

(** *** [get_coordinates]

    [l[i]] on a list.  The second argument of [get_coordinates] is the
    outcome of the identity test [bounding_box_type is "box"]. *)

Definition list_getitem {A} (l : list A) (i : nat) : result A :=
  match l !! i with
  | Some x => Ok x
  | None => Raise (IndexError "list index out of range")
  end.

Definition corner (bounding_box : list (list Q)) (p q : nat) : result Q :=
  let? point := list_getitem bounding_box p in list_getitem point q.

Definition get_coordinates (bounding_box : list (list Q)) (is_box : bool)
  : result (option (list (list Q))) :=
  let coordinates : list (list Q) := [] in
  if is_box then
    let? a := corner bounding_box 0 1 in
    let? b := corner bounding_box 0 0 in
    let coordinates := coordinates ++ [[a; b]] in
    let? a := corner bounding_box 0 1 in
    let? b := corner bounding_box 1 0 in
    let coordinates := coordinates ++ [[a; b]] in
    let? a := corner bounding_box 1 1 in
    let? b := corner bounding_box 1 0 in
    let coordinates := coordinates ++ [[a; b]] in
    let? a := corner bounding_box 1 1 in
    let? b := corner bounding_box 0 0 in
    let coordinates := coordinates ++ [[a; b]] in
    let? a := corner bounding_box 0 1 in
    let? b := corner bounding_box 0 0 in
    let coordinates := coordinates ++ [[a; b]] in
    Ok (Some coordinates)
  else Ok None.

(** *** [get_coops_longname]

    The request and the evaluation of the XPath expression are outside the
    model: their result, the list of the matching text nodes, is the first
    argument.  Indexing a string gives the string of one character. *)

Definition get_coops_longname (longName : list string) (station : string)
  : outcome string :=
  match longName with
  | name :: _ => Return name
  | [] =>
      (* longName = station; return longName[0] *)
      match station with
      | String ch _ => Return (String ch EmptyString)
      | EmptyString => Throw StringIndexError
      end
  end.

(** *** [dateRange] *)

Inductive fes_filter : Type :=
| PropertyIsLessThanOrEqualTo (propertyname literal : string)
| PropertyIsGreaterThanOrEqualTo (propertyname literal : string).

Definition dateRange (start_date stop_date constraint : string)
  : outcome (fes_filter * fes_filter) :=
  if String.eqb constraint "overlaps" then
    let start := PropertyIsLessThanOrEqualTo "apiso:TempExtent_begin" stop_date in
    let stop := PropertyIsGreaterThanOrEqualTo "apiso:TempExtent_end" start_date in
    Return (start, stop)
  else if String.eqb constraint "within" then
    let start := PropertyIsGreaterThanOrEqualTo "apiso:TempExtent_begin" start_date in
    let stop := PropertyIsLessThanOrEqualTo "apiso:TempExtent_end" stop_date in
    Return (start, stop)
  else Throw (UnboundLocalError "start").

(** What a filter asks of a record, for an order [le] on the literals and
    the value [get] of the named property of the record. *)
Definition filter_holds (le : string -> string -> Prop) (get : string -> string)
    (f : fes_filter) : Prop :=
  match f with
  | PropertyIsLessThanOrEqualTo p lit => le (get p) lit
  | PropertyIsGreaterThanOrEqualTo p lit => le lit (get p)
  end.

(** *** [get_model_name]

    The first argument is [cube.attributes], a dictionary.  The result
    carries the lines printed. *)

Definition titles : gmap string string :=
  list_to_map
    [("http://omgsrv1.meas.ncsu.edu:8080/thredds/dodsC/fmrc/sabgom/SABGOM_Forecast_Model_Run_Collection_best.ncd",
      "SABGOM");
     ("http://geoport.whoi.edu/thredds/dodsC/coawst_4/use/fmrc/coawst_4_use_best.ncd",
      "COAWST_4");
     ("http://tds.marine.rutgers.edu/thredds/dodsC/roms/espresso/2013_da/his_Best/ESPRESSO_Real-Time_v2_History_Best_Available_best.ncd",
      "ESPRESSO");
     ("http://oos.soest.hawaii.edu/thredds/dodsC/hioos/tide_pac",
      "BTMPB");
     ("http://opendap.co-ops.nos.noaa.gov/thredds/dodsC/TBOFS/fmrc/Aggregated_7_day_TBOFS_Fields_Forecast_best.ncd",
      "TBOFS");
     ("http://oos.soest.hawaii.edu/thredds/dodsC/pacioos/hycom/global",
      "HYCOM");
     ("http://opendap.co-ops.nos.noaa.gov/thredds/dodsC/CBOFS/fmrc/Aggregated_7_day_CBOFS_Fields_Forecast_best.ncd",
      "CBOFS");
     ("http://geoport-dev.whoi.edu/thredds/dodsC/estofs/atlantic",
      "ESTOFS");
     ("http://www.smast.umassd.edu:8080/thredds/dodsC/FVCOM/NECOFS/Forecasts/NECOFS_GOM3_FORECAST.nc",
      "NECOFS_GOM3_FVCOM");
     ("http://www.smast.umassd.edu:8080/thredds/dodsC/FVCOM/NECOFS/Forecasts/NECOFS_WAVE_FORECAST.nc",
      "NECOFS_GOM3_WAVE")].

Definition get_model_name (attributes : gmap string string) (url : string)
  : outcome (string * string * list string) :=
  match attributes !! "title" with
  | None => Throw (KeyError "title")        (* not an AttributeError *)
  | Some model_full_name =>
      match titles !! url with
      | Some mod_name => Return (mod_name, model_full_name, [])
      | None =>
          Return (model_full_name, model_full_name,
                  [String.append "Model " (String.append url " not in the list")])
      end
  end.

(** *** [inline_map]

    The argument is [m.HTML] once the map is built. *)

Definition dquote : Ascii.ascii := Ascii.ascii_of_nat 34.

(** [s.replace] of every double quote character by [&quot;] *)
Fixpoint escape_quotes (s : string) : string :=
  match s with
  | EmptyString => EmptyString
  | String ch rest =>
      if Ascii.eqb ch dquote then String.append "&quot;" (escape_quotes rest)
      else String ch (escape_quotes rest)
  end.

Definition quoted (s : string) : string :=
  String dquote (String.append s (String dquote EmptyString)).

Definition inline_map (html : string) : string :=
  let srcdoc := escape_quotes html in
  String.append "<iframe srcdoc="
    (String.append (quoted srcdoc)
       (String.append " style="
          (String.append (quoted "width: 100%; height: 500px; border: none")
                         "></iframe>"))).

Fixpoint count_char (ch : Ascii.ascii) (s : string) : nat :=
  match s with
  | EmptyString => 0
  | String x rest => (if Ascii.eqb x ch then 1 else 0) + count_char ch rest
  end.

(** *** Predicates used to state the properties of the helpers *)

(** The order of dates written year first, as strings. *)
Definition date_le (a b : string) : Prop := a = b \/ String_as_OT.lt a b.

(** A bounding box with its two corners, each with two coordinates. *)
Definition box_corners (bounding_box : list (list Q)) (x0 y0 x1 y1 : Q) : Prop :=
  exists p0 p1 : list Q,
    bounding_box !! 0%nat = Some p0 /\ bounding_box !! 1%nat = Some p1
    /\ p0 !! 0%nat = Some x0 /\ p0 !! 1%nat = Some y0
    /\ p1 !! 0%nat = Some x1 /\ p1 !! 1%nat = Some y1.

(** The closed interval that [wrap_lon360] maps into. *)
Definition in_lon360 (x : Q) : Prop := (0 <= x <= 360)%Q.

(* ===================================================================== *)
(** * Part II. Properties                                                *)
(* ===================================================================== *)

(** ** Rational arithmetic *)

Lemma Qlt_bool_iff (x y : Q) : Qlt_bool x y = true <-> (x < y)%Q.
Proof.
  unfold Qlt_bool. rewrite negb_true_iff.
  destruct (Qle_bool y x) eqn:E.
  - apply Qle_bool_iff in E. split; [discriminate | intros H; lra].
  - split; [intros _ | reflexivity].
    destruct (Qlt_le_dec x y) as [H | H]; [exact H |].
    apply Qle_bool_iff in H. congruence.
Qed.

Lemma Qle_bool_false_lt (x y : Q) : (y < x)%Q -> Qle_bool x y = false.
Proof.
  intros H. destruct (Qle_bool x y) eqn:E; [| reflexivity].
  apply Qle_bool_iff in E. lra.
Qed.

Lemma Qlt_bool_false (x y : Q) : Qlt_bool x y = false <-> (y <= x)%Q.
Proof.
  unfold Qlt_bool. rewrite negb_false_iff. apply Qle_bool_iff.
Qed.

Lemma Qmod_bound (x m : Q) : (0 < m)%Q -> (0 <= Qmod x m < m)%Q.
Proof.
  intros Hm. unfold Qmod.
  pose proof (Qfloor_le (x / m)) as Hlo.
  pose proof (Qlt_floor (x / m)) as Hhi.
  rewrite inject_Z_plus in Hhi.
  set (f := inject_Z (Qfloor (x / m))) in *.
  assert (Hx : (x == m * (x / m))%Q) by (field; lra).
  split.
  - assert ((m * f <= m * (x / m))%Q) by (apply Qmult_le_l; assumption).
    lra.
  - assert ((m * (x / m) < m * (f + inject_Z 1))%Q) by (apply Qmult_lt_l; assumption).
    change (inject_Z 1) with 1%Q in *. lra.
Qed.

Lemma wrap360_nonpos (x : Q) : (x <= 0)%Q -> (0 <= wrap360 x < 360)%Q.
Proof.
  intros Hx. unfold wrap360.
  assert (Qlt_bool 0 x = false) as -> by (apply Qlt_bool_false; exact Hx).
  rewrite andb_false_r. apply Qmod_bound. lra.
Qed.

Lemma wrap360_pos (x : Q) : (0 < x)%Q -> (0 < wrap360 x <= 360)%Q.
Proof.
  intros Hx. unfold wrap360.
  assert (Qlt_bool 0 x = true) as -> by (apply Qlt_bool_iff; exact Hx).
  rewrite andb_true_r.
  pose proof (Qmod_bound x 360 ltac:(lra)) as [Hlo Hhi].
  destruct (Qeq_bool (Qmod x 360) 0) eqn:E.
  - lra.
  - apply Qeq_bool_neq in E. split; [| lra].
    destruct (Qlt_le_dec 0 (Qmod x 360)) as [H | H]; [exact H |].
    exfalso. apply E. lra.
Qed.

Lemma wrap180_fixed (x : Q) : in_lon180 x -> wrap180 x = x.
Proof.
  intros [Hlo Hhi]. unfold wrap180.
  assert (Qlt_bool x (-180) = false) as -> by (apply Qlt_bool_false; exact Hlo).
  assert (Qlt_bool 180 x = false) as -> by (apply Qlt_bool_false; exact Hhi).
  reflexivity.
Qed.

Lemma wrap180_range (x : Q) : in_lon180 (wrap180 x).
Proof.
  unfold wrap180, in_lon180.
  destruct (Qlt_bool x (-180)) eqn:Elo; simpl.
  - apply Qlt_bool_iff in Elo.
    pose proof (wrap360_nonpos (x + 180) ltac:(lra)). lra.
  - apply Qlt_bool_false in Elo.
    destruct (Qlt_bool 180 x) eqn:Ehi.
    + apply Qlt_bool_iff in Ehi.
      pose proof (wrap360_pos (x + 180) ltac:(lra)). lra.
    + apply Qlt_bool_false in Ehi. lra.
Qed.

Lemma wrap180_idem (x : Q) : wrap180 (wrap180 x) = wrap180 x.
Proof. apply wrap180_fixed, wrap180_range. Qed.

(** Below the interval the image stays clear of 180; only arguments above
    it can land on 180. *)
Lemma wrap180_below (x : Q) : (x < 180)%Q -> (wrap180 x < 180)%Q.
Proof.
  intros Hx. unfold wrap180.
  destruct (Qlt_bool x (-180)) eqn:Elo; simpl.
  - apply Qlt_bool_iff in Elo.
    pose proof (wrap360_nonpos (x + 180) ltac:(lra)). lra.
  - assert (Qlt_bool 180 x = false) as -> by (apply Qlt_bool_false; lra).
    exact Hx.
Qed.

(** ** Boolean indexing *)

Lemma assign_scalar_wrap360 (l : list Q) :
  assign_scalar
    (logical_and (map (fun x => Qeq_bool x 0) (map (fun x => Qmod x 360) l))
                 (map (fun x => Qlt_bool 0 x) l))
    (map (fun x => Qmod x 360) l) 360
  = map wrap360 l.
Proof.
  unfold logical_and.
  induction l as [| x l IH]; [reflexivity |].
  cbn [map zip_with assign_scalar]. rewrite IH. reflexivity.
Qed.

Lemma assign_select_wrap180 (f : Q -> Q) (p : Q -> bool) (l : list Q) :
  assign (map p l) l (map f (select (map p l) l))
  = map (fun x => if p x then f x else x) l.
Proof.
  induction l as [| x l IH]; simpl; [reflexivity |].
  destruct (p x); simpl; rewrite IH; reflexivity.
Qed.

Lemma logical_or_map {A} (p q : A -> bool) (l : list A) :
  logical_or (map p l) (map q l) = map (fun x => p x || q x) l.
Proof.
  unfold logical_or. induction l as [| x l IH]; simpl; [reflexivity |].
  rewrite IH. reflexivity.
Qed.

Lemma atleast_1d_data (a : ndarray) : data (atleast_1d a) = data a.
Proof. unfold atleast_1d. destruct (shape a); reflexivity. Qed.

Lemma atleast_1d_idem (a : ndarray) : atleast_1d (atleast_1d a) = atleast_1d a.
Proof. unfold atleast_1d. destruct (shape a) eqn:E; simpl; [reflexivity | rewrite E; reflexivity]. Qed.

Lemma atleast_1d_map (f : Q -> Q) (a : ndarray) :
  atleast_1d (arr_map f a) = arr_map f (atleast_1d a).
Proof. unfold atleast_1d, arr_map. simpl. destruct a as [[| n s] d]; reflexivity. Qed.

(** ** Running the store functions *)

Lemma run_deref (h : heap) (r : ref) (a : ndarray) :
  h !! r = Some a -> deref r h = Ok (a, h).
Proof. intros H. unfold deref. rewrite H. reflexivity. Qed.

Lemma lookup_new (h ext : heap) (i : nat) :
  (h ++ ext) !! (length h + i)%nat = ext !! i.
Proof. rewrite lookup_app_r by lia. f_equal. lia. Qed.

Lemma lookup_new0 (h ext : heap) : (h ++ ext) !! length h = ext !! 0%nat.
Proof. rewrite <- (lookup_new h ext 0). f_equal. lia. Qed.

Lemma insert_new (h ext : heap) (i : nat) (a : ndarray) :
  <[(length h + i)%nat := a]> (h ++ ext) = h ++ <[i := a]> ext.
Proof. rewrite insert_app_r_alt by lia. do 2 f_equal. lia. Qed.

Lemma insert_new0 (h ext : heap) (a : ndarray) :
  <[length h := a]> (h ++ ext) = h ++ <[0%nat := a]> ext.
Proof. rewrite <- (insert_new h ext 0). f_equal. lia. Qed.

(** [wrap_lon360] allocates a copy and the result behind the store it was
    given, and leaves that store as it was. *)
Lemma wrap_lon360_run (h : heap) (r : ref) (a : ndarray) :
  h !! r = Some a ->
  wrap_lon360 r h
  = Ok ((length h + 1)%nat, h ++ [atleast_1d a; arr_map wrap360 (atleast_1d a)]).
Proof.
  intros Hr. unfold wrap_lon360, np_copy, np_gt, np_mod, np_eq, np_setitem_scalar,
    bind, alloc, store, ret.
  rewrite (run_deref _ _ _ Hr).
  unfold deref. rewrite lookup_new0. simpl.
  rewrite lookup_new0. simpl.
  rewrite length_app. simpl.
  rewrite <- app_assoc. simpl.
  rewrite (lookup_new h _ 1). simpl.
  rewrite (lookup_new h _ 1). simpl.
  rewrite (insert_new h _ 1). simpl.
  unfold arr_map. simpl.
  rewrite ?atleast_1d_data, assign_scalar_wrap360. reflexivity.
Qed.

Lemma bind_ok {A B} (m : M A) (f : A -> M B) (h h' : heap) (a : A) :
  m h = Ok (a, h') -> bind m f h = f a h'.
Proof. intros H. unfold bind. rewrite H. reflexivity. Qed.

Section Primitives.
Variables (h : heap) (r : ref) (a : ndarray).
Hypothesis Hr : h !! r = Some a.

Lemma np_copy_run : np_copy r h = Ok (length h, h ++ [atleast_1d a]).
Proof. unfold np_copy. rewrite (bind_ok _ _ _ _ _ (run_deref _ _ _ Hr)). reflexivity. Qed.

Lemma np_lt_run (c : Q) :
  np_lt r c h = Ok (map (fun x => Qlt_bool x c) (data a), h).
Proof. unfold np_lt. rewrite (bind_ok _ _ _ _ _ (run_deref _ _ _ Hr)). reflexivity. Qed.

Lemma np_gt_run (c : Q) :
  np_gt r c h = Ok (map (fun x => Qlt_bool c x) (data a), h).
Proof. unfold np_gt. rewrite (bind_ok _ _ _ _ _ (run_deref _ _ _ Hr)). reflexivity. Qed.

Lemma np_add_run (c : Q) :
  np_add r c h = Ok (length h, h ++ [arr_map (fun x => x + c)%Q a]).
Proof. unfold np_add. rewrite (bind_ok _ _ _ _ _ (run_deref _ _ _ Hr)). reflexivity. Qed.

Lemma np_sub_run (c : Q) :
  np_sub r c h = Ok (length h, h ++ [arr_map (fun x => x - c)%Q a]).
Proof. unfold np_sub. rewrite (bind_ok _ _ _ _ _ (run_deref _ _ _ Hr)). reflexivity. Qed.

Lemma np_getitem_run (m : mask) :
  np_getitem r m h
  = Ok (length h, h ++ [NDArray [length (select m (data a))] (select m (data a))]).
Proof. unfold np_getitem. rewrite (bind_ok _ _ _ _ _ (run_deref _ _ _ Hr)). reflexivity. Qed.

Lemma np_setitem_run (m : mask) (v : ref) (vs : ndarray) :
  h !! v = Some vs ->
  length (data vs) = length (select m (data a)) ->
  np_setitem r m v h
  = Ok (tt, <[r := NDArray (shape a) (assign m (data a) (data vs))]> h).
Proof.
  intros Hv Hlen. unfold np_setitem.
  rewrite (bind_ok _ _ _ _ _ (run_deref _ _ _ Hr)).
  rewrite (bind_ok _ _ _ _ _ (run_deref _ _ _ Hv)).
  rewrite Hlen, Nat.eqb_refl. reflexivity.
Qed.
End Primitives.

(** [wrap_lon180] allocates its result first, then five temporaries. *)
Lemma wrap_lon180_run (h : heap) (r : ref) (a : ndarray) :
  h !! r = Some a ->
  exists tmp : heap,
    wrap_lon180 r h = Ok (length h, h ++ arr_map wrap180 (atleast_1d a) :: tmp).
Proof.
  intros Hr. unfold wrap_lon180.
  rewrite (bind_ok _ _ _ _ _ (np_copy_run _ _ _ Hr)).
  set (a1 := atleast_1d a).
  assert (H1 : (h ++ [a1]) !! length h = Some a1) by (rewrite lookup_new0; reflexivity).
  rewrite (bind_ok _ _ _ _ _ (np_lt_run _ _ _ H1 _)).
  rewrite (bind_ok _ _ _ _ _ (np_gt_run _ _ _ H1 _)).
  rewrite logical_or_map.
  set (p := fun x => Qlt_bool x (-180) || Qlt_bool 180 x).
  rewrite (bind_ok _ _ _ _ _ (np_getitem_run _ _ _ H1 _)).
  set (sel := NDArray _ _).
  rewrite length_app, <- app_assoc. simpl.
  assert (H2 : (h ++ [a1; sel]) !! (length h + 1)%nat = Some sel)
    by (rewrite lookup_new; reflexivity).
  rewrite (bind_ok _ _ _ _ _ (np_add_run _ _ _ H2 _)).
  rewrite length_app, <- app_assoc. simpl.
  set (sh := arr_map _ sel).
  assert (H3 : (h ++ [a1; sel; sh]) !! (length h + 2)%nat = Some sh)
    by (rewrite lookup_new; reflexivity).
  rewrite (bind_ok _ _ _ _ _ (wrap_lon360_run _ _ _ H3)).
  rewrite length_app, <- app_assoc. simpl.
  set (w := arr_map wrap360 _).
  assert (H4 : (h ++ [a1; sel; sh; atleast_1d sh; w]) !! (length h + 3 + 1)%nat = Some w)
    by (rewrite <- Nat.add_assoc, lookup_new; reflexivity).
  rewrite (bind_ok _ _ _ _ _ (np_sub_run _ _ _ H4 _)).
  rewrite <- app_assoc. simpl.
  set (bk := arr_map _ w).
  assert (H5 : (h ++ [a1; sel; sh; atleast_1d sh; w; bk]) !! length h = Some a1)
    by (rewrite lookup_new0; reflexivity).
  assert (H6 : (h ++ [a1; sel; sh; atleast_1d sh; w; bk]) !! (length h + 5)%nat = Some bk)
    by (rewrite lookup_new; reflexivity).
  rewrite length_app. simpl.
  assert (Hlen : length (data bk) = length (select (map p (data a1)) (data a1))).
  { unfold bk, w, sh, arr_map. simpl. rewrite ?atleast_1d_data. simpl.
    rewrite !length_map. reflexivity. }
  rewrite (bind_ok _ _ _ _ _ (np_setitem_run _ _ _ H5 _ _ _ H6 Hlen)).
  rewrite insert_new0. simpl. unfold ret.
  eexists. do 3 f_equal.
  unfold bk, w, sh, arr_map. simpl. rewrite ?atleast_1d_data. simpl.
  rewrite !map_map.
  rewrite (assign_select_wrap180 (fun x => wrap360 (x + 180) - 180)%Q p).
  reflexivity.
Qed.

(** On array values: both functions map their element function over the
    argument, made a vector when it is a scalar. *)
Lemma np_call_wrap_lon360 (a : ndarray) :
  np_call wrap_lon360 a = Ok (arr_map wrap360 (atleast_1d a)).
Proof.
  unfold np_call. rewrite (wrap_lon360_run [a] 0%nat a eq_refl). reflexivity.
Qed.

Lemma np_call_wrap_lon180 (a : ndarray) :
  np_call wrap_lon180 a = Ok (arr_map wrap180 (atleast_1d a)).
Proof.
  unfold np_call. destruct (wrap_lon180_run [a] 0%nat a eq_refl) as [tmp ->].
  reflexivity.
Qed.

(** ** The longitude wrappers *)

(** C9: normalizing the grid longitudes [359, 1, 181] with [wrap_lon180]
    yields exactly [-1, 1, -179]. *)
Theorem wrap_lon180_example :
  np_call wrap_lon180 (vec [359; 1; 181]%Q) = Ok (vec [-1; 1; -179]%Q).
Proof. vm_compute. reflexivity. Qed.

Lemma map_fixed {A} (f : A -> A) (P : A -> Prop) (l : list A) :
  (forall x, P x -> f x = x) -> Forall P l -> map f l = l.
Proof.
  intros Hf. induction 1 as [| x l Hx _ IH]; simpl; [reflexivity |].
  rewrite (Hf x Hx), IH. reflexivity.
Qed.

Lemma in_lon180_open_closed (x : Q) : in_lon180_open x -> in_lon180 x.
Proof. unfold in_lon180_open, in_lon180. intros [? ?]. split; lra. Qed.

Lemma wrap180_all_in_range (l : list Q) : Forall in_lon180 (map wrap180 l).
Proof. apply Forall_map, Forall_forall. intros x _. apply wrap180_range. Qed.

(** C6: [wrap_lon180] is idempotent, and it returns longitudes that are
    already in [-180, 180) as they are. *)
Theorem wrap_lon180_idempotent (a : ndarray) :
  exists b : ndarray,
    np_call wrap_lon180 a = Ok b
    /\ np_call wrap_lon180 b = Ok b
    /\ (Forall in_lon180_open (data a) -> b = atleast_1d a).
Proof.
  exists (arr_map wrap180 (atleast_1d a)). split; [apply np_call_wrap_lon180 |]. split.
  - rewrite np_call_wrap_lon180, atleast_1d_map, atleast_1d_idem.
    unfold arr_map. simpl. rewrite map_map. f_equal. f_equal.
    apply map_ext. intros x. apply wrap180_idem.
  - intros Hin. unfold arr_map. rewrite atleast_1d_data.
    rewrite (map_fixed wrap180 in_lon180_open).
    + rewrite <- (atleast_1d_data a). destruct (atleast_1d a); reflexivity.
    + intros x Hx. apply wrap180_fixed, in_lon180_open_closed, Hx.
    + exact Hin.
Qed.

Lemma wrap_lon180_idempotent_witness :
  Forall in_lon180_open [-180; 0; 179.5]%Q
  /\ exists b : ndarray,
       np_call wrap_lon180 (vec [-180; 0; 179.5]%Q) = Ok b
       /\ np_call wrap_lon180 b = Ok b
       /\ b = vec [-180; 0; 179.5]%Q.
Proof.
  assert (H : Forall in_lon180_open [-180; 0; 179.5]%Q).
  { repeat constructor; vm_compute; congruence. }
  split; [exact H |].
  destruct (wrap_lon180_idempotent (vec [-180; 0; 179.5]%Q)) as (b & H1 & H2 & H3).
  exists b. split; [exact H1 |]. split; [exact H2 |]. exact (H3 H).
Defined.

(** C10: [wrap_lon180] and [wrap_lon360] leave the array they are given as
    it was; what they return is a new array. *)
Theorem wrap_lon_argument_unchanged (h : heap) (r : ref) (a : ndarray) :
  h !! r = Some a ->
  (exists (r' : ref) (h' : heap),
      wrap_lon180 r h = Ok (r', h')
      /\ r' <> r
      /\ h' !! r = Some a
      /\ (forall q : ref, (q < length h)%nat -> h' !! q = h !! q)
      /\ h' !! r' = Some (arr_map wrap180 (atleast_1d a)))
  /\ (exists (r' : ref) (h' : heap),
      wrap_lon360 r h = Ok (r', h')
      /\ r' <> r
      /\ h' !! r = Some a
      /\ (forall q : ref, (q < length h)%nat -> h' !! q = h !! q)
      /\ h' !! r' = Some (arr_map wrap360 (atleast_1d a))).
Proof.
  intros Hr. pose proof (lookup_lt_Some _ _ _ Hr) as Hlt. split.
  - destruct (wrap_lon180_run h r a Hr) as [tmp Hrun].
    eexists _, _. split; [exact Hrun |].
    split; [lia |]. split; [rewrite lookup_app_l by exact Hlt; exact Hr |].
    split; [intros q Hq; apply lookup_app_l; exact Hq |].
    rewrite lookup_new0. reflexivity.
  - eexists _, _. split; [apply wrap_lon360_run; exact Hr |].
    split; [lia |]. split; [rewrite lookup_app_l by exact Hlt; exact Hr |].
    split; [intros q Hq; apply lookup_app_l; exact Hq |].
    rewrite lookup_new. reflexivity.
Qed.

Lemma wrap_lon_argument_unchanged_witness :
  exists (r' : ref) (h' : heap),
    wrap_lon180 0%nat [vec [359; 1; 181]%Q] = Ok (r', h')
    /\ r' <> 0%nat
    /\ h' !! 0%nat = Some (vec [359; 1; 181]%Q).
Proof.
  destruct (wrap_lon_argument_unchanged [vec [359; 1; 181]%Q] 0%nat
              (vec [359; 1; 181]%Q) eq_refl) as [(r' & h' & H1 & H2 & H3 & _) _].
  exists r', h'. split; [exact H1 |]. split; [exact H2 | exact H3].
Defined.

(** ** The index *)

Lemma Forall_join_replicate {A} (P : A -> Prop) (n : nat) (l : list A) :
  Forall P l -> Forall P (mjoin (replicate n l)).
Proof.
  intros H. apply Forall_join, Forall_replicate, H.
Qed.

Lemma Forall_zip_fst {A B} (P : A -> Prop) (l : list A) (k : list B) :
  Forall P l -> Forall (fun p => P (fst p)) (zip l k).
Proof.
  intros H. revert k. induction H as [| x l Hx _ IH]; intros [| y k]; simpl;
    constructor; [exact Hx | apply IH].
Qed.

(** The longitudes of an index built by [make_tree] are wrapped. *)
Lemma make_tree_lon_range (c : cube) :
  exists (t : KDTree) (lon lat : ndarray),
    make_tree c = Ok (t, lon, lat)
    /\ Forall (fun p => in_lon180 (fst p)) (tree_data t).
Proof.
  unfold make_tree. rewrite np_call_wrap_lon180. simpl.
  set (lon := arr_map wrap180 _).
  assert (Hlon : Forall in_lon180 (data lon)) by apply wrap180_all_in_range.
  destruct (_ && _).
  - eexists _, _, _. split; [reflexivity |]. simpl.
    apply Forall_zip_fst, Forall_join_replicate, Hlon.
  - eexists _, _, _. split; [reflexivity |]. simpl.
    apply Forall_zip_fst, Hlon.
Qed.

(** C5 (as amended): [wrap_lon180] maps every longitude into the closed
    interval [-180, 180], and the index built by [make_tree] stores
    longitudes of that interval only. *)
Theorem wrap_lon180_closed_range :
  (forall a : ndarray,
      exists b : ndarray,
        np_call wrap_lon180 a = Ok b /\ Forall in_lon180 (data b))
  /\ (forall c : cube,
      exists (t : KDTree) (lon lat : ndarray),
        make_tree c = Ok (t, lon, lat)
        /\ Forall (fun p => in_lon180 (fst p)) (tree_data t)).
Proof.
  split.
  - intros a. eexists. split; [apply np_call_wrap_lon180 |].
    apply wrap180_all_in_range.
  - apply make_tree_lon_range.
Qed.

(** C5 (as stated) fails: the longitude 180 is returned as it is, so the
    image is not inside the half-open interval [-180, 180). *)
Lemma wrap_lon180_half_open_fails :
  ~ (forall a b : ndarray,
        np_call wrap_lon180 a = Ok b -> Forall in_lon180_open (data b)).
Proof.
  intros H.
  specialize (H (vec [180]%Q) (vec [180]%Q) eq_refl).
  inversion H as [| x l [_ Hlt] _]; subst.
  vm_compute in Hlt. discriminate.
Qed.

Lemma zip_replicate_r {A B} (l : list A) (y : B) :
  zip l (replicate (length l) y) = map (fun x => (x, y)) l.
Proof. induction l as [| x l IH]; simpl; [reflexivity | rewrite IH; reflexivity]. Qed.

Lemma zip_mesh {A B} (l : list A) (k : list B) :
  zip (mjoin (replicate (length k) l)) (mjoin (map (replicate (length l)) k))
  = mjoin (map (fun y => map (fun x => (x, y)) l) k).
Proof.
  induction k as [| y k IH]; simpl; [reflexivity |].
  rewrite zip_with_app by (rewrite length_replicate; reflexivity).
  rewrite zip_replicate_r. f_equal. exact IH.
Qed.

Lemma length_mesh {A B C} (f : A -> B -> C) (l : list A) (k : list B) :
  length (mjoin (map (fun y => map (fun x => f x y) l) k)) = (length l * length k)%nat.
Proof.
  induction k as [| y k IH]; simpl; [lia |].
  rewrite length_app, length_map, IH. lia.
Qed.

Lemma vector_shape (a : ndarray) :
  ndim a = 1%nat -> wf_array a ->
  shape a = [np_len a] /\ length (data a) = np_len a.
Proof.
  unfold ndim, wf_array, np_len. destruct (shape a) as [| n [| m s]]; simpl; try discriminate.
  intros _ ->. split; [reflexivity | lia].
Qed.

(** C4: for a structured grid given by two coordinate vectors the index
    holds [len(lon) * len(lat)] points, every (wrapped) longitude paired
    with every latitude, row by row of the mesh. *)
Theorem make_tree_structured_size (c : cube) :
  ndim (coordX c) = 1%nat ->
  ndim (coordY c) = 1%nat ->
  cube_ndim c = 3%nat ->
  wf_array (coordX c) ->
  wf_array (coordY c) ->
  exists (t : KDTree) (lon lat : ndarray),
    make_tree c = Ok (t, lon, lat)
    /\ tree_n t = (np_len (coordX c) * np_len (coordY c))%nat
    /\ tree_data t
       = mjoin (map (fun y => map (fun x => (wrap180 x, y)) (data (coordX c)))
                    (data (coordY c)))
    /\ shape lon = [np_len (coordY c); np_len (coordX c)]
    /\ shape lat = [np_len (coordY c); np_len (coordX c)].
Proof.
  intros HX HY Hc WX WY.
  destruct (vector_shape _ HX WX) as [SX LX].
  destruct (vector_shape _ HY WY) as [SY LY].
  unfold make_tree. rewrite np_call_wrap_lon180. simpl.
  assert (H1 : atleast_1d (coordX c) = coordX c).
  { unfold atleast_1d. rewrite SX. reflexivity. }
  rewrite H1. unfold ndim at 1. simpl. fold (ndim (coordX c)).
  rewrite HX, HY, Hc. simpl.
  eexists _, _, _. split; [reflexivity |].
  unfold tree_n, py_zip, ravel. simpl.
  rewrite length_map, <- (length_map wrap180 (data (coordX c))), zip_mesh.
  rewrite length_mesh, !length_map, LX, LY.
  split; [reflexivity |]. split; [| split; reflexivity].
  f_equal. apply map_ext. intros y. rewrite map_map. reflexivity.
Qed.

Lemma make_tree_structured_size_witness :
  exists (t : KDTree) (lon lat : ndarray),
    make_tree sample_cube_1d = Ok (t, lon, lat) /\ tree_n t = 4%nat.
Proof.
  destruct (make_tree_structured_size sample_cube_1d
              eq_refl eq_refl eq_refl eq_refl eq_refl)
    as (t & lon & lat & H1 & H2 & _).
  exists t, lon, lat. split; [exact H1 | exact H2].
Defined.

(** X5: without the third cube dimension the coordinates are taken as
    already paired: the index holds as many points as the shorter array. *)
Lemma make_tree_paired (c : cube) :
  cube_ndim c <> 3%nat ->
  exists (t : KDTree) (lon lat : ndarray),
    make_tree c = Ok (t, lon, lat)
    /\ tree_data t = zip (map wrap180 (data (coordX c))) (data (coordY c))
    /\ tree_n t = Nat.min (length (data (coordX c))) (length (data (coordY c))).
Proof.
  intros Hc. unfold make_tree. rewrite np_call_wrap_lon180. simpl.
  apply Nat.eqb_neq in Hc. rewrite Hc, andb_false_r.
  eexists _, _, _. split; [reflexivity |].
  unfold tree_n, py_zip, ravel. simpl. rewrite atleast_1d_data.
  split; [reflexivity |]. rewrite length_zip, length_map. reflexivity.
Qed.

(** ** The query of the index *)

Lemma insert_hit_Forall (P : Q * nat -> Prop) (e : Q * nat) (l : list (Q * nat)) :
  P e -> Forall P l -> Forall P (insert_hit e l).
Proof.
  intros He Hl. induction Hl as [| x l Hx Hl IH]; simpl.
  - constructor; [exact He | constructor].
  - destruct (Qle_bool (fst e) (fst x)); repeat constructor; assumption.
Qed.

Lemma length_insert_hit (e : Q * nat) (l : list (Q * nat)) :
  length (insert_hit e l) = S (length l).
Proof.
  induction l as [| x l IH]; simpl; [reflexivity |].
  destruct (Qle_bool (fst e) (fst x)); simpl; [reflexivity | rewrite IH; reflexivity].
Qed.

Lemma insert_hit_sorted (e : Q * nat) (l : list (Q * nat)) :
  StronglySorted hit_le l -> StronglySorted hit_le (insert_hit e l).
Proof.
  induction 1 as [| x l Hl IH Hx]; simpl.
  - repeat constructor.
  - destruct (Qle_bool (fst e) (fst x)) eqn:E.
    + apply Qle_bool_iff in E. constructor; [constructor; assumption |].
      constructor; [exact E |].
      eapply Forall_impl; [exact Hx |]. unfold hit_le. intros y Hy. simpl in Hy. lra.
    + constructor; [exact IH |].
      apply insert_hit_Forall; [| exact Hx].
      unfold hit_le. destruct (Qlt_le_dec (fst x) (fst e)) as [H | H]; [lra |].
      apply Qle_bool_iff in H. congruence.
Qed.

Lemma sort_hits_sorted (l : list (Q * nat)) : StronglySorted hit_le (sort_hits l).
Proof.
  unfold sort_hits. induction l as [| x l IH]; simpl; [constructor |].
  apply insert_hit_sorted, IH.
Qed.

Lemma sort_hits_Forall (P : Q * nat -> Prop) (l : list (Q * nat)) :
  Forall P l -> Forall P (sort_hits l).
Proof.
  unfold sort_hits. induction 1 as [| x l Hx _ IH]; simpl; [constructor |].
  apply insert_hit_Forall; assumption.
Qed.

Lemma length_sort_hits (l : list (Q * nat)) : length (sort_hits l) = length l.
Proof.
  unfold sort_hits. induction l as [| x l IH]; simpl; [reflexivity |].
  rewrite length_insert_hit, IH. reflexivity.
Qed.

Lemma length_all_hits (t : KDTree) (x : Q * Q) : length (all_hits t x) = tree_n t.
Proof. unfold all_hits. rewrite length_sort_hits, length_imap. reflexivity. Qed.

Lemma all_hits_sorted (t : KDTree) (x : Q * Q) : StronglySorted hit_le (all_hits t x).
Proof. apply sort_hits_sorted. Qed.

Lemma all_hits_in_tree (t : KDTree) (x : Q * Q) :
  Forall (fun h => (snd h < tree_n t)%nat) (all_hits t x).
Proof.
  apply sort_hits_Forall, Forall_forall. intros e He.
  apply elem_of_lookup_imap_1 in He as (i & p & -> & Hi). simpl.
  apply lookup_lt_Some in Hi. exact Hi.
Qed.

Section Sorted.
Context {A : Type} (R : A -> A -> Prop).

Lemma select_Forall (P : A -> Prop) (m : mask) (l : list A) :
  Forall P l -> Forall P (select m l).
Proof.
  intros H. revert m. induction H as [| x l Hx _ IH]; intros [| [|] m]; simpl;
    try constructor; auto.
Qed.

Lemma select_sorted (m : mask) (l : list A) :
  StronglySorted R l -> StronglySorted R (select m l).
Proof.
  intros H. revert m. induction H as [| x l _ IH Hx]; intros [| [|] m]; simpl;
    try constructor; auto using select_Forall.
Qed.

Lemma take_sorted (k : nat) (l : list A) :
  StronglySorted R l -> StronglySorted R (take k l).
Proof.
  intros H. rewrite <- (take_drop k l) in H.
  apply StronglySorted_app_1_l in H. exact H.
Qed.

Lemma zip_sorted {B} (l : list A) (k : list B) :
  StronglySorted R l -> StronglySorted (fun a b => R (fst a) (fst b)) (zip l k).
Proof.
  intros H. revert k. induction H as [| x l _ IH Hx]; intros [| y k]; simpl;
    try constructor; [apply IH |].
  apply (Forall_zip_fst (R x)), Hx.
Qed.

Lemma length_select_le (m : mask) (l : list A) : (length (select m l) <= length l)%nat.
Proof.
  revert l. induction m as [| [|] m IH]; intros [| x l]; simpl; try lia;
    specialize (IH l); lia.
Qed.
End Sorted.

Lemma distances_sorted (hits : list (Q * nat)) (n : nat) :
  StronglySorted hit_le hits ->
  StronglySorted xle (map (fun h => Root (fst h)) hits ++ replicate n PInf).
Proof.
  intros H. apply StronglySorted_app_2.
  - intros x1 x2 H1 H2.
    apply list_elem_of_In, in_map_iff in H1 as (h & <- & _).
    apply elem_of_replicate in H2 as [-> _]. exact I.
  - induction H as [| x l _ IH Hx]; simpl; constructor; [exact IH |].
    apply Forall_map. eapply Forall_impl; [exact Hx |]. intros y Hy. exact Hy.
  - induction n as [| n IH]; simpl; constructor; [exact IH |].
    apply Forall_replicate. exact I.
Qed.

(** The candidates are listed in ascending order of distance. *)
Lemma candidates_sorted (c : cube) (t : KDTree) (xi yi : Q) (k : nat) (max_dist : Q)
    (cands : list (xreal * (nat * nat))) :
  candidates c t xi yi k max_dist = Ok cands -> StronglySorted cand_le cands.
Proof.
  unfold candidates, KDTree_query.
  destruct (k =? 0)%nat; [discriminate |]. simpl.
  destruct (length _ =? 0)%nat; [discriminate |].
  set (ds := select _ (_ ++ replicate _ PInf)).
  assert (Hds : StronglySorted xle ds).
  { apply select_sorted, distances_sorted, take_sorted, all_hits_sorted. }
  match goal with |- context [rbind ?m _] => destruct m as [[i j] | e] end;
    simpl; [| discriminate].
  intros [= <-]. apply (zip_sorted xle), Hds.
Qed.

(** ** The loop *)

Lemma filled_masked_invalid (s : series) : filled 0 (masked_invalid s) = zero_filled s.
Proof.
  unfold filled, masked_invalid, zero_filled. rewrite map_map.
  apply map_ext. intros [q | |]; reflexivity.
Qed.

Lemma passes_inv (c : cube) (min_var : Q) (idx : nat * nat) (b : bool) :
  passes c min_var idx = Some b ->
  exists s : series,
    cube_getitem c idx = Ok s /\ xge_Q (np_std (zero_filled s)) min_var = b.
Proof.
  unfold passes. destruct (cube_getitem c idx) as [s | e]; [| discriminate].
  intros [= <-]. exists s. rewrite filled_masked_invalid. split; reflexivity.
Qed.

Section Walk.
Variables (c : cube) (min_var : Q).

Lemma walk_accept (d : xreal) (idx : nat * nat) (s : series)
    (rest : list (xreal * (nat * nat))) (cur : found) :
  cube_getitem c idx = Ok s ->
  xge_Q (np_std (zero_filled s)) min_var = true ->
  walk c min_var ((d, idx) :: rest) cur = Ok (Some s, Some d, Some idx).
Proof.
  intros Hs Hv. simpl. rewrite Hs. simpl.
  rewrite filled_masked_invalid, Hv. reflexivity.
Qed.

Lemma walk_reject (d : xreal) (idx : nat * nat) (s : series)
    (rest : list (xreal * (nat * nat))) (cur : found) :
  cube_getitem c idx = Ok s ->
  xge_Q (np_std (zero_filled s)) min_var = false ->
  walk c min_var ((d, idx) :: rest) cur
  = walk c min_var rest (Some s, Some d, Some idx).
Proof.
  intros Hs Hv. simpl. rewrite Hs. simpl.
  rewrite filled_masked_invalid, Hv. reflexivity.
Qed.

(** Rejected candidates in front of a non-empty rest do not show in the
    result. *)
Lemma walk_skip (pre : list (xreal * (nat * nat))) (x : xreal * (nat * nat))
    (rest : list (xreal * (nat * nat))) :
  Forall (fun cand => passes c min_var (snd cand) = Some false) pre ->
  forall cur : found,
  exists cur' : found,
    walk c min_var (pre ++ x :: rest) cur = walk c min_var (x :: rest) cur'.
Proof.
  induction 1 as [| [d idx] pre Hd _ IH]; intros cur.
  - exists cur. reflexivity.
  - apply passes_inv in Hd as (s & Hs & Hv). simpl in Hs.
    change (((d, idx) :: pre) ++ x :: rest) with ((d, idx) :: (pre ++ x :: rest)).
    rewrite (walk_reject _ _ _ _ _ Hs Hv). apply IH.
Qed.

(** The loop returns whenever every candidate can be extracted. *)
Lemma walk_returns (cands : list (xreal * (nat * nat))) :
  Forall (fun cand => exists s, cube_getitem c (snd cand) = Ok s) cands ->
  forall cur : found, exists r : found, walk c min_var cands cur = Ok r.
Proof.
  induction 1 as [| [d idx] cands [s Hs] _ IH]; intros cur; simpl.
  - exists cur. reflexivity.
  - simpl in Hs. rewrite Hs. simpl.
    destruct (xge_Q _ _); [eexists; reflexivity | apply IH].
Qed.
End Walk.

(** C2: when no surviving candidate reaches the minimum deviation, the
    last examined one, which is the farthest, is returned with its series,
    distance and cell coordinate. *)
Theorem nearest_water_falls_back_to_last (c : cube) (t : KDTree) (xi yi : Q)
    (k : nat) (max_dist min_var : Q)
    (pre : list (xreal * (nat * nat))) (d : xreal) (idx : nat * nat) :
  candidates c t xi yi k max_dist = Ok (pre ++ [(d, idx)]) ->
  Forall (fun cand => passes c min_var (snd cand) = Some false) (pre ++ [(d, idx)]) ->
  exists s : series,
    cube_getitem c idx = Ok s
    /\ get_nearest_water c t xi yi k max_dist min_var = Ok (Some s, Some d, Some idx)
    /\ Forall (fun cand => xle (fst cand) d) pre.
Proof.
  intros Hc Hall. apply Forall_app in Hall as [Hpre Hlast].
  apply Forall_cons in Hlast as [Hlast _].
  apply passes_inv in Hlast as (s & Hs & Hv). simpl in Hs.
  exists s. split; [exact Hs |]. split.
  - unfold get_nearest_water. rewrite Hc. simpl.
    destruct (walk_skip c min_var pre (d, idx) [] Hpre (None, None, None)) as [cur ->].
    rewrite (walk_reject _ _ _ _ _ _ _ Hs Hv). reflexivity.
  - apply candidates_sorted in Hc.
    apply Forall_forall. intros cand Hin.
    apply (StronglySorted_app_1_elem_of cand_le pre [(d, idx)] cand (d, idx) Hc Hin).
    apply list_elem_of_here.
Qed.

(** C3: the candidates are walked in ascending order of distance, the
    deviation is taken on the zero-filled series, and the first candidate
    that reaches the minimum is returned with its distance and cell
    coordinate. *)
Theorem nearest_water_first_accepted (c : cube) (t : KDTree) (xi yi : Q)
    (k : nat) (max_dist min_var : Q)
    (pre : list (xreal * (nat * nat))) (d : xreal) (idx : nat * nat)
    (post : list (xreal * (nat * nat))) :
  candidates c t xi yi k max_dist = Ok (pre ++ (d, idx) :: post) ->
  Forall (fun cand => passes c min_var (snd cand) = Some false) pre ->
  passes c min_var idx = Some true ->
  exists s : series,
    cube_getitem c idx = Ok s
    /\ xge_Q (np_std (zero_filled s)) min_var = true
    /\ get_nearest_water c t xi yi k max_dist min_var = Ok (Some s, Some d, Some idx)
    /\ StronglySorted cand_le (pre ++ (d, idx) :: post).
Proof.
  intros Hc Hpre Hidx.
  apply passes_inv in Hidx as (s & Hs & Hv).
  exists s. split; [exact Hs |]. split; [exact Hv |]. split.
  - unfold get_nearest_water. rewrite Hc. simpl.
    destruct (walk_skip c min_var pre (d, idx) post Hpre (None, None, None)) as [cur ->].
    apply walk_accept; assumption.
  - apply candidates_sorted in Hc. exact Hc.
Qed.

Lemma nearest_water_falls_back_to_last_witness :
  exists s : series,
    get_nearest_water sample_cube sample_tree 0.1 0.2 default_k 1 5
    = Ok (Some s, Some (Root 0.8500), Some (0, 1)%nat).
Proof.
  destruct (nearest_water_falls_back_to_last sample_cube sample_tree 0.1 0.2
              default_k 1 5
              [(Root 0.0500, (0, 0)%nat); (Root 0.6500, (1, 0)%nat)]
              (Root 0.8500) (0, 1)%nat)
    as (s & _ & H & _).
  - vm_compute. reflexivity.
  - repeat constructor.
  - exists s. exact H.
Defined.

Lemma nearest_water_first_accepted_witness :
  exists s : series,
    get_nearest_water sample_cube sample_tree 0.1 0.2 default_k 1 default_min_var
    = Ok (Some s, Some (Root 0.8500), Some (0, 1)%nat).
Proof.
  destruct (nearest_water_first_accepted sample_cube sample_tree 0.1 0.2
              default_k 1 default_min_var
              [(Root 0.0500, (0, 0)%nat); (Root 0.6500, (1, 0)%nat)]
              (Root 0.8500) (0, 1)%nat [])
    as (s & _ & _ & H & _).
  - vm_compute. reflexivity.
  - repeat constructor.
  - vm_compute. reflexivity.
  - exists s. exact H.
Defined.

(** ** More neighbours than grid points *)

Lemma select_app {A} (m1 m2 : mask) (l1 l2 : list A) :
  length m1 = length l1 ->
  select (m1 ++ m2) (l1 ++ l2) = select m1 l1 ++ select m2 l2.
Proof.
  revert l1. induction m1 as [| b m1 IH]; intros [| x l1]; simpl; try discriminate.
  - reflexivity.
  - intros [= H]. rewrite (IH l1 H). destruct b; reflexivity.
Qed.

Lemma select_none {A} (n : nat) (l : list A) : select (replicate n false) l = [].
Proof.
  revert l. induction n as [| n IH]; intros [| x l]; simpl; try reflexivity. apply IH.
Qed.

Lemma select_all_false {A B} (f : A -> bool) (l : list A) (k : list B) :
  Forall (fun x => f x = false) l -> select (map f l) k = [].
Proof.
  intros H. revert k. induction H as [| x l Hx _ IH]; intros [| y k]; simpl;
    try reflexivity.
  rewrite Hx. apply IH.
Qed.

Lemma map_replicate {A B} (f : A -> B) (n : nat) (x : A) :
  map f (replicate n x) = replicate n (f x).
Proof. induction n as [| n IH]; simpl; [reflexivity | rewrite IH; reflexivity]. Qed.

(** With [k] beyond the number of points the query returns every point,
    followed by [k - n] missing neighbours. *)
Lemma query_beyond_size (t : KDTree) (x : Q * Q) (k : nat) :
  (tree_n t < k)%nat ->
  KDTree_query t x k
  = Ok (map (fun h => Root (fst h)) (all_hits t x) ++ replicate (k - tree_n t) PInf,
        map snd (all_hits t x) ++ replicate (k - tree_n t) (tree_n t)).
Proof.
  intros Hk. unfold KDTree_query.
  destruct (k =? 0)%nat eqn:E; [apply Nat.eqb_eq in E; lia |].
  rewrite take_ge by (rewrite length_all_hits; lia).
  rewrite length_all_hits. reflexivity.
Qed.

(** The missing neighbours never pass the distance mask. *)
Lemma survivors_beyond_size {A} (max_dist : Q) (hits : list (Q * nat)) (n : nat)
    (l : list A) (y : A) :
  length l = length hits ->
  select (map (fun d => xle_Q d max_dist)
              (map (fun h => Root (fst h)) hits ++ replicate n PInf))
         (l ++ replicate n y)
  = select (map (fun d => xle_Q d max_dist) (map (fun h => Root (fst h)) hits)) l.
Proof.
  intros Hl. rewrite map_app, map_replicate. simpl.
  rewrite select_app by (rewrite !length_map; symmetry; exact Hl).
  rewrite select_none, app_nil_r. reflexivity.
Qed.

Lemma candidates_beyond_size (c : cube) (t : KDTree) (xi yi : Q) (k : nat) (max_dist : Q) :
  (tree_n t < k)%nat ->
  candidates c t xi yi k max_dist = candidates c t xi yi (S (tree_n t)) max_dist.
Proof.
  intros Hk. unfold candidates.
  rewrite !query_beyond_size by lia. simpl rbind.
  rewrite !length_app, !length_replicate.
  replace (_ + (k - tree_n t) =? 0)%nat with false by (symmetry; apply Nat.eqb_neq; lia).
  replace (_ + (S (tree_n t) - tree_n t) =? 0)%nat with false
    by (symmetry; apply Nat.eqb_neq; lia).
  cbv zeta.
  rewrite !(survivors_beyond_size max_dist (all_hits t (xi, yi)))
    by (rewrite ?length_map; reflexivity).
  reflexivity.
Qed.

(** ** Translation of the flat identifiers *)

Lemma forallb_lt (n : nat) (l : list nat) :
  Forall (fun i => (i < n)%nat) l -> forallb (fun i => (i <? n)%nat) l = true.
Proof.
  induction 1 as [| i l Hi _ IH]; simpl; [reflexivity |].
  rewrite IH, andb_true_r. apply Nat.ltb_lt, Hi.
Qed.

(** Against a two dimensional shape the identifier [n] becomes row
    [n / nx] and column [n mod nx]. *)
Lemma unravel_mesh (inds : list nat) (ny nx : nat) :
  Forall (fun i => (i < ny * nx)%nat) inds ->
  unravel_index inds [ny; nx]
  = Ok [map (fun n => (n / nx)%nat) inds; map (fun n => (n mod nx)%nat) inds].
Proof.
  intros H. unfold unravel_index.
  rewrite forallb_lt by (simpl; rewrite Nat.mul_1_r; exact H).
  simpl. do 2 f_equal; [| f_equal]; apply map_ext; intros n;
    rewrite Nat.mul_1_r; [reflexivity | apply Nat.div_1_r].
Qed.

(** Against the shape of a coordinate vector there is a single array of
    coordinates, which the assignment to [i, j] refuses. *)
Lemma unravel_vector_raises (inds : list nat) (n : nat) :
  exists msg : string,
    (let? t := unravel_index inds [n] in unpack2 t) = Raise (ValueError msg).
Proof.
  unfold unravel_index. destruct (forallb _ inds); simpl; eexists; reflexivity.
Qed.

Lemma zip_map_map {A B C} (f : A -> B) (g : A -> C) (l : list A) :
  zip (map f l) (map g l) = map (fun x => (f x, g x)) l.
Proof. induction l as [| x l IH]; simpl; [reflexivity | rewrite IH; reflexivity]. Qed.

Lemma Forall_zip_snd {A B} (P : B -> Prop) (l : list A) (k : list B) :
  Forall P k -> Forall (fun p => P (snd p)) (zip l k).
Proof.
  intros H. revert l. induction H as [| y k Hy _ IH]; intros [| x l]; simpl;
    constructor; [exact Hy | apply IH].
Qed.

(** Every cell of the mesh can be extracted from a (time, row, column)
    cube. *)
Lemma cube_getitem_mesh (c : cube) (nt ny nx n : nat) :
  cshape c = [nt; ny; nx] ->
  (n < ny * nx)%nat ->
  exists s : series, cube_getitem c ((n / nx)%nat, (n mod nx)%nat) = Ok s.
Proof.
  intros Hc Hn. unfold cube_getitem. rewrite Hc.
  assert (Hx : nx <> 0%nat) by (intros ->; lia).
  assert (Hi : (n / nx < ny)%nat) by (apply Nat.Div0.div_lt_upper_bound; lia).
  assert (Hj : (n mod nx < nx)%nat) by (apply Nat.mod_upper_bound; exact Hx).
  apply Nat.ltb_lt in Hi, Hj. rewrite Hi, Hj. simpl. eexists. reflexivity.
Qed.

(** A cube of two dimensions has no cell at a pair of indices. *)
Lemma cube_getitem_2d (c : cube) (idx : nat * nat) :
  cube_ndim c = 2%nat ->
  cube_getitem c idx = Raise (IndexError "More slices requested than dimensions").
Proof.
  unfold cube_ndim, cube_getitem.
  destruct (cshape c) as [| a [| b [| d s]]]; simpl; try discriminate. reflexivity.
Qed.

(** On a mesh grid, with [k] beyond the number of points, the candidates
    are the points within reach, each with its row and column. *)
Lemma candidates_mesh (c : cube) (t : KDTree) (xi yi : Q) (k : nat) (max_dist : Q)
    (nt ny nx : nat) :
  cshape c = [nt; ny; nx] ->
  shape (coordX c) = [ny; nx] ->
  tree_n t = (ny * nx)%nat ->
  (tree_n t < k)%nat ->
  exists (ds : list xreal) (inds : list nat),
    candidates c t xi yi k max_dist
    = Ok (zip ds (map (fun n => ((n / nx)%nat, (n mod nx)%nat)) inds))
    /\ Forall (fun i => (i < ny * nx)%nat) inds.
Proof.
  intros Hc HX Ht Hk. unfold candidates.
  rewrite query_beyond_size by exact Hk. simpl rbind.
  rewrite length_app, length_replicate.
  replace (_ + (k - tree_n t) =? 0)%nat with false by (symmetry; apply Nat.eqb_neq; lia).
  cbv zeta.
  rewrite !(survivors_beyond_size max_dist (all_hits t (xi, yi)))
    by (rewrite ?length_map; reflexivity).
  set (m := map _ (map _ _)).
  assert (Hin : Forall (fun i => (i < ny * nx)%nat) (select m (map snd (all_hits t (xi, yi))))).
  { apply select_Forall, Forall_map. rewrite <- Ht. apply all_hits_in_tree. }
  unfold ndim. rewrite HX. simpl andb. cbv iota.
  rewrite (unravel_mesh _ _ _ Hin). simpl.
  unfold py_zip. rewrite zip_map_map.
  eexists _, _. split; [reflexivity | exact Hin].
Qed.

(** What holds of a neighbour count beyond the number of grid points:
    the query succeeds, at most [n] of its entries pass the mask and all of
    them name grid points; the outcome is the same for every such count;
    and on a mesh grid the function returns. *)
Theorem nearest_water_k_beyond_grid (c : cube) (t : KDTree) (xi yi : Q)
    (k : nat) (max_dist min_var : Q) :
  (tree_n t < k)%nat ->
  (exists (ds : list xreal) (inds : list nat),
      KDTree_query t (xi, yi) k = Ok (ds, inds)
      /\ length ds = k
      /\ length inds = k
      /\ (length (select (map (fun d => xle_Q d max_dist) ds) inds) <= tree_n t)%nat
      /\ Forall (fun i => (i < tree_n t)%nat)
                (select (map (fun d => xle_Q d max_dist) ds) inds))
  /\ get_nearest_water c t xi yi k max_dist min_var
     = get_nearest_water c t xi yi (S (tree_n t)) max_dist min_var
  /\ (mesh_cube c t ->
      exists r : found, get_nearest_water c t xi yi k max_dist min_var = Ok r).
Proof.
  intros Hk. split; [| split].
  - eexists _, _. split; [apply query_beyond_size; exact Hk |].
    rewrite !length_app, !length_map, !length_replicate, length_all_hits.
    split; [lia |]. split; [lia |].
    rewrite (survivors_beyond_size max_dist (all_hits t (xi, yi)))
      by (rewrite length_map; reflexivity).
    split.
    + etransitivity; [apply length_select_le |].
      rewrite length_map, length_all_hits. reflexivity.
    + apply select_Forall, Forall_map, all_hits_in_tree.
  - unfold get_nearest_water. rewrite (candidates_beyond_size c t xi yi k) by exact Hk.
    reflexivity.
  - intros (nt & ny & nx & Hc & HX & Ht).
    destruct (candidates_mesh c t xi yi k max_dist nt ny nx Hc HX Ht Hk)
      as (ds & inds & Hcands & Hin).
    unfold get_nearest_water. rewrite Hcands. simpl.
    apply walk_returns.
    apply (Forall_zip_snd (fun idx => exists s, cube_getitem c idx = Ok s)).
    apply Forall_map. eapply Forall_impl; [exact Hin |].
    intros n Hn. simpl. eapply cube_getitem_mesh; eassumption.
Qed.

Lemma sample_mesh : mesh_cube sample_cube sample_tree.
Proof. exists 3%nat, 2%nat, 2%nat. repeat split; reflexivity. Defined.

Lemma nearest_water_k_beyond_grid_witness :
  (tree_n sample_tree < default_k)%nat
  /\ exists r : found,
       get_nearest_water sample_cube sample_tree 0.1 0.2
         default_k default_max_dist default_min_var = Ok r.
Proof.
  assert (H : (tree_n sample_tree < default_k)%nat) by (vm_compute; lia).
  split; [exact H |].
  destruct (nearest_water_k_beyond_grid sample_cube sample_tree 0.1 0.2
              default_k default_max_dist default_min_var H) as (_ & _ & Hret).
  exact (Hret sample_mesh).
Defined.

(** ** Where the search does not return a candidate *)

(** When no distance passes the mask the loop body never runs: on an
    unstructured grid, and on a grid with two dimensional coordinates, the
    function returns the three initial values instead of raising. *)
Lemma nearest_water_nothing_in_reach (c : cube) (t : KDTree) (xi yi : Q)
    (k : nat) (max_dist min_var : Q) (ds : list xreal) (inds : list nat) :
  KDTree_query t (xi, yi) k = Ok (ds, inds) ->
  Forall (fun d => xle_Q d max_dist = false) ds ->
  (ndim (coordX c) = 1%nat /\ cube_ndim c = 2%nat) \/ ndim (coordX c) = 2%nat ->
  get_nearest_water c t xi yi k max_dist min_var = Ok (None, None, None).
Proof.
  intros Hq Hfar Hgrid. unfold get_nearest_water, candidates. rewrite Hq. simpl rbind.
  assert (Hlen : (length inds =? 0)%nat = false).
  { revert Hq. unfold KDTree_query. destruct (k =? 0)%nat eqn:E; [discriminate |].
    intros [= _ <-]. apply Nat.eqb_neq in E. apply Nat.eqb_neq.
    rewrite length_app, length_map, length_replicate. lia. }
  rewrite Hlen. cbv zeta.
  rewrite !(select_all_false _ ds) by exact Hfar.
  destruct Hgrid as [[HX Hc] | HX].
  - rewrite HX, Hc. reflexivity.
  - rewrite HX. simpl andb. cbv iota.
    unfold ndim in HX. destruct (shape (coordX c)) as [| a [| b [| d s]]]; try discriminate.
    reflexivity.
Qed.

(** X12: on an unstructured grid the flat identifier is doubled into a
    pair, and the first candidate within reach stops the function: a cube
    of two dimensions has no cell at a pair. *)
Lemma nearest_water_unstructured_raises (c : cube) (t : KDTree) (xi yi : Q)
    (k : nat) (max_dist min_var : Q)
    (cand : xreal * (nat * nat)) (rest : list (xreal * (nat * nat))) :
  cube_ndim c = 2%nat ->
  candidates c t xi yi k max_dist = Ok (cand :: rest) ->
  get_nearest_water c t xi yi k max_dist min_var
  = Raise (IndexError "More slices requested than dimensions").
Proof.
  intros Hc Hcands. unfold get_nearest_water. rewrite Hcands.
  destruct cand as [d idx]. simpl. rewrite (cube_getitem_2d c idx Hc). reflexivity.
Qed.

(** On a structured grid given by coordinate vectors the translation of
    the identifiers always raises. *)
Lemma nearest_water_vectors_raise (c : cube) (t : KDTree) (xi yi : Q)
    (k : nat) (max_dist min_var : Q) :
  ndim (coordX c) = 1%nat ->
  cube_ndim c <> 2%nat ->
  exists msg : string,
    get_nearest_water c t xi yi k max_dist min_var = Raise (ValueError msg).
Proof.
  intros HX Hc. unfold get_nearest_water, candidates.
  destruct (KDTree_query t (xi, yi) k) as [[ds inds] | e] eqn:Hq.
  - simpl rbind. destruct (length inds =? 0)%nat; [eexists; reflexivity |].
    cbv zeta. rewrite HX. apply Nat.eqb_neq in Hc. rewrite Hc. simpl andb. cbv iota.
    unfold ndim in HX. destruct (shape (coordX c)) as [| n [| b s]]; try discriminate.
    destruct (unravel_vector_raises
                (select (map (fun d => xle_Q d max_dist) ds) inds) n) as [msg Hmsg].
    exists msg. rewrite Hmsg. reflexivity.
  - revert Hq. unfold KDTree_query. destruct (k =? 0)%nat; [| discriminate].
    intros [= <-]. eexists. reflexivity.
Qed.

Lemma sqdist_pos (x p : Q * Q) :
  ~ (fst p == fst x /\ snd p == snd x)%Q -> (0 < sqdist x p)%Q.
Proof.
  intros Hne. unfold sqdist.
  set (a := (fst x - fst p)%Q). set (b := (snd x - snd p)%Q).
  assert (Ha : (0 <= a * a)%Q) by nra.
  assert (Hb : (0 <= b * b)%Q) by nra.
  destruct (Qeq_dec a 0) as [Ea | Ea].
  - destruct (Qeq_dec b 0) as [Eb | Eb].
    + exfalso. apply Hne. unfold a, b in *. split; lra.
    + assert ((0 < b * b)%Q) by (destruct (Qlt_le_dec b 0); nra). lra.
  - assert ((0 < a * a)%Q) by (destruct (Qlt_le_dec a 0); nra). lra.
Qed.

(** With a maximum distance of zero and a query point that is no grid
    point, nothing passes the mask. *)
Lemma nearest_water_zero_reach (c : cube) (t : KDTree) (xi yi : Q)
    (k : nat) (min_var : Q) :
  k <> 0%nat ->
  Forall (fun p => ~ (fst p == xi /\ snd p == yi)%Q) (tree_data t) ->
  (ndim (coordX c) = 1%nat /\ cube_ndim c = 2%nat) \/ ndim (coordX c) = 2%nat ->
  get_nearest_water c t xi yi k 0 min_var = Ok (None, None, None).
Proof.
  intros Hk Hoff Hgrid.
  eapply nearest_water_nothing_in_reach; [| | exact Hgrid].
  - unfold KDTree_query. apply Nat.eqb_neq in Hk. rewrite Hk. reflexivity.
  - apply Forall_app. split; [| apply Forall_replicate; reflexivity].
    apply Forall_map, Forall_take, sort_hits_Forall, Forall_forall.
    intros e He. apply elem_of_lookup_imap_1 in He as (i & p & -> & Hi).
    simpl. apply Qle_bool_false_lt.
    apply sqdist_pos. rewrite Forall_forall in Hoff.
    apply (Hoff p). apply list_elem_of_lookup. exists i. exact Hi.
Qed.

(** C1: with nothing within [max_dist] the function does not raise; on
    the sample grid, with a maximum distance of zero and a query point off
    the grid points, it returns the three initial values. *)
Theorem nearest_water_none_in_reach_returns :
  get_nearest_water sample_cube sample_tree 0.1 0.2 default_k 0 default_min_var
  = Ok (None, None, None).
Proof. vm_compute. reflexivity. Qed.

(** C7: on the unstructured sample grid the identifier 1 of the nearest
    node is turned into the pair (1, 1) and the extraction raises; on the
    structured sample grid given by coordinate vectors the identifiers are
    not translated against the mesh shape, the function raises. *)
Theorem nearest_water_cell_coordinate_raises :
  candidates sample_cube_nodes sample_tree_nodes 0.99 0 default_k default_max_dist
  = Ok [(Root 0.0001, (1, 1)%nat)]
  /\ get_nearest_water sample_cube_nodes sample_tree_nodes 0.99 0
       default_k default_max_dist default_min_var
     = Raise (IndexError "More slices requested than dimensions")
  /\ get_nearest_water sample_cube_1d sample_tree 0.01 0
       default_k default_max_dist default_min_var
     = Raise (ValueError "need more values to unpack").
Proof. vm_compute. repeat split; reflexivity. Qed.

(** C8: a neighbour count beyond the number of grid points does not keep
    the function from raising.  With ten neighbours asked of the two nodes
    of the unstructured sample grid the query yields one candidate within
    reach and the extraction of its cell raises; with ten neighbours asked
    of the four points of the structured sample grid given by coordinate
    vectors the translation of the identifiers raises. *)
Theorem nearest_water_k_beyond_grid_raises :
  (tree_n sample_tree_nodes < default_k)%nat
  /\ candidates sample_cube_nodes sample_tree_nodes 0 0 default_k default_max_dist
     = Ok [(Root 0, (0, 0)%nat)]
  /\ get_nearest_water sample_cube_nodes sample_tree_nodes 0 0
       default_k default_max_dist default_min_var
     = Raise (IndexError "More slices requested than dimensions")
  /\ (tree_n sample_tree < default_k)%nat
  /\ get_nearest_water sample_cube_1d sample_tree 1 1
       default_k default_max_dist default_min_var
     = Raise (ValueError "invalid entry in index array").
Proof.
  split; [vm_compute; lia |]. split; [vm_compute; reflexivity |].
  split; [vm_compute; reflexivity |]. split; [vm_compute; lia |].
  vm_compute. reflexivity.
Qed.

(* ===================================================================== *)
(** * Part III. Further properties of the module                         *)
(* ===================================================================== *)

(** ** Longitudes *)

Lemma Forall2_map_r {A B} (P : A -> B -> Prop) (f : A -> B) (l : list A) :
  (forall x, P x (f x)) -> Forall2 P l (map f l).
Proof. intros H. induction l as [| x l IH]; simpl; constructor; auto. Qed.

Lemma Forall2_map_r_in {A B} (Q : A -> Prop) (P : A -> B -> Prop) (f : A -> B)
    (l : list A) :
  (forall x, Q x -> P x (f x)) -> Forall Q l -> Forall2 P l (map f l).
Proof. intros H. induction 1 as [| x l Hx _ IH]; simpl; constructor; auto. Qed.

Lemma Qfloor_unique (q : Q) (n : Z) :
  (inject_Z n <= q < inject_Z n + 1)%Q -> Qfloor q = n.
Proof.
  intros [Hlo Hhi].
  pose proof (Qfloor_le q) as H1. pose proof (Qlt_floor q) as H2.
  rewrite inject_Z_plus in H2. change (inject_Z 1) with 1%Q in H2.
  assert (Ha : (inject_Z (Qfloor q) < inject_Z (n + 1))%Q).
  { rewrite inject_Z_plus. change (inject_Z 1) with 1%Q. lra. }
  assert (Hb : (inject_Z n < inject_Z (Qfloor q + 1))%Q).
  { rewrite inject_Z_plus. change (inject_Z 1) with 1%Q. lra. }
  rewrite <- Zlt_Qlt in Ha, Hb. lia.
Qed.

Lemma Qmod_small (x : Q) : (0 <= x < 360)%Q -> (Qmod x 360 == x)%Q.
Proof.
  intros [Hlo Hhi]. unfold Qmod.
  assert (Hq : (x / 360 == x * (1 # 360))%Q) by (field).
  rewrite (Qfloor_unique (x / 360) 0).
  - change (inject_Z 0) with 0%Q. ring.
  - change (inject_Z 0) with 0%Q. rewrite Hq. split; lra.
Qed.

Lemma Qmod_turn (x : Q) : (x == 360)%Q -> (Qmod x 360 == 0)%Q.
Proof.
  intros Hx. unfold Qmod.
  assert (Hq : (x / 360 == x * (1 # 360))%Q) by (field).
  rewrite (Qfloor_unique (x / 360) 1).
  - change (inject_Z 1) with 1%Q. lra.
  - change (inject_Z 1) with 1%Q. rewrite Hq. split; lra.
Qed.

Lemma wrap360_fixed (x : Q) : in_lon360 x -> (wrap360 x == x)%Q.
Proof.
  intros [Hlo Hhi]. unfold wrap360.
  destruct (Qlt_le_dec x 360) as [H | H].
  - pose proof (Qmod_small x (conj Hlo H)) as Hm.
    destruct (Qeq_bool (Qmod x 360) 0 && Qlt_bool 0 x) eqn:E; [| exact Hm].
    apply andb_true_iff in E as [E1 E2].
    apply Qeq_bool_iff in E1. apply Qlt_bool_iff in E2. lra.
  - assert (Hx : (x == 360)%Q) by lra.
    pose proof (Qmod_turn x Hx) as Hm.
    assert (Qeq_bool (Qmod x 360) 0 = true) as -> by (apply Qeq_bool_iff; exact Hm).
    assert (Qlt_bool 0 x = true) as -> by (apply Qlt_bool_iff; lra).
    simpl. lra.
Qed.

Lemma wrap360_range (x : Q) : in_lon360 (wrap360 x).
Proof.
  unfold in_lon360. destruct (Qlt_le_dec 0 x) as [Hx | Hx].
  - pose proof (wrap360_pos x Hx). lra.
  - pose proof (wrap360_nonpos x Hx). lra.
Qed.

(** X2: [wrap_lon360] maps into the closed interval [0, 360]; a positive
    longitude never comes back as 0 (a positive multiple of 360 becomes
    360), and zero stays zero. *)
Theorem wrap_lon360_range (a : ndarray) :
  exists b : ndarray,
    np_call wrap_lon360 a = Ok b
    /\ Forall2 (fun x y => in_lon360 y
                           /\ ((0 < x)%Q -> (0 < y)%Q)
                           /\ ((x == 0)%Q -> (y == 0)%Q))
               (data a) (data b).
Proof.
  eexists. split; [apply np_call_wrap_lon360 |].
  simpl. rewrite atleast_1d_data. apply Forall2_map_r. intros x.
  split; [apply wrap360_range |]. split.
  - intros Hx. apply (wrap360_pos x Hx).
  - intros Hx. rewrite (wrap360_fixed x) by (unfold in_lon360; lra). exact Hx.
Qed.

Lemma wrap_lon360_range_witness :
  exists b : ndarray,
    np_call wrap_lon360 (vec [720; 0; -90]%Q) = Ok b
    /\ Forall2 (fun x y => (0 < x)%Q -> (0 < y)%Q) [720; 0; -90]%Q (data b).
Proof.
  destruct (wrap_lon360_range (vec [720; 0; -90]%Q)) as (b & H1 & H2).
  exists b. split; [exact H1 |].
  eapply Forall2_impl; [exact H2 |]. intros x y (_ & H & _). exact H.
Defined.

(** X3: [wrap_lon360] is idempotent, and it gives back the longitudes of
    [0, 360] (equal as numbers). *)
Theorem wrap_lon360_idempotent (a : ndarray) :
  exists b b' : ndarray,
    np_call wrap_lon360 a = Ok b
    /\ np_call wrap_lon360 b = Ok b'
    /\ shape b' = shape b
    /\ Forall2 Qeq (data b) (data b')
    /\ (Forall in_lon360 (data a) -> Forall2 Qeq (data a) (data b)).
Proof.
  eexists _, _. split; [apply np_call_wrap_lon360 |].
  split; [apply np_call_wrap_lon360 |].
  rewrite atleast_1d_map, atleast_1d_idem. simpl. rewrite atleast_1d_data.
  split; [reflexivity |]. split.
  - apply (Forall2_map_r_in in_lon360).
    + intros y Hy. symmetry. apply wrap360_fixed, Hy.
    + apply Forall_map, Forall_forall. intros x _. apply wrap360_range.
  - intros Hin. apply (Forall2_map_r_in in_lon360); [| exact Hin].
    intros y Hy. symmetry. apply wrap360_fixed, Hy.
Qed.

Lemma wrap_lon360_idempotent_witness :
  Forall in_lon360 [0; 90; 360]%Q
  /\ exists b : ndarray,
       np_call wrap_lon360 (vec [0; 90; 360]%Q) = Ok b
       /\ Forall2 Qeq [0; 90; 360]%Q (data b).
Proof.
  assert (H : Forall in_lon360 [0; 90; 360]%Q).
  { repeat constructor; vm_compute; congruence. }
  split; [exact H |].
  destruct (wrap_lon360_idempotent (vec [0; 90; 360]%Q)) as (b & b' & H1 & _ & _ & _ & H2).
  exists b. split; [exact H1 | exact (H2 H)].
Defined.

(** X4: the longitudes that [wrap_lon180] gives back are those of the
    closed interval [-180, 180], and no others. *)
Theorem wrap_lon180_fixed_points (a : ndarray) :
  exists b : ndarray,
    np_call wrap_lon180 a = Ok b
    /\ Forall2 (fun x y => (y == x)%Q <-> in_lon180 x) (data a) (data b).
Proof.
  eexists. split; [apply np_call_wrap_lon180 |].
  simpl. rewrite atleast_1d_data. apply Forall2_map_r. intros x. split.
  - intros Heq. pose proof (wrap180_range x) as [Hlo Hhi].
    unfold in_lon180. split; lra.
  - intros Hin. rewrite (wrap180_fixed x Hin). reflexivity.
Qed.

(** ** The index and the flat identifiers *)

Lemma make_tree_paired_witness :
  exists (t : KDTree) (lon lat : ndarray),
    make_tree sample_cube_nodes = Ok (t, lon, lat) /\ tree_n t = 2%nat.
Proof.
  assert (Hc : cube_ndim sample_cube_nodes <> 3%nat) by (vm_compute; lia).
  destruct (make_tree_paired sample_cube_nodes Hc) as (t & lon & lat & H1 & _ & H2).
  exists t, lon, lat. split; [exact H1 | exact H2].
Defined.

Lemma lookup_mesh {A B C} (f : A -> B -> C) (l : list A) (k : list B)
    (i j : nat) (x : A) (y : B) :
  l !! i = Some x ->
  k !! j = Some y ->
  mjoin (map (fun y => map (fun x => f x y) l) k) !! (j * length l + i)%nat
  = Some (f x y).
Proof.
  intros Hi. revert j. induction k as [| y' k IH]; intros [| j] Hj; simpl in *;
    try discriminate.
  - injection Hj as ->. rewrite lookup_app_l
      by (rewrite length_map; eapply lookup_lt_Some; exact Hi).
    rewrite list_lookup_fmap_Some. exists x. split; [reflexivity | exact Hi].
  - rewrite lookup_app_r by (rewrite length_map; lia).
    rewrite length_map.
    replace (length l + j * length l + i - length l)%nat with (j * length l + i)%nat by lia.
    apply IH, Hj.
Qed.

(** X6: in the index of a structured grid given by vectors the point of
    longitude number [i] and latitude number [j] has the identifier
    [j * len(lon) + i]; the two arrays returned hold its coordinates at
    that position. *)
Theorem make_tree_mesh_order (c : cube) :
  ndim (coordX c) = 1%nat ->
  ndim (coordY c) = 1%nat ->
  cube_ndim c = 3%nat ->
  wf_array (coordX c) ->
  wf_array (coordY c) ->
  exists (w : ndarray) (t : KDTree) (lon lat : ndarray),
    np_call wrap_lon180 (coordX c) = Ok w
    /\ make_tree c = Ok (t, lon, lat)
    /\ forall (i j : nat) (x y : Q),
        data w !! i = Some x ->
        data (coordY c) !! j = Some y ->
        tree_data t !! (j * np_len (coordX c) + i)%nat = Some (x, y)
        /\ ravel lon !! (j * np_len (coordX c) + i)%nat = Some x
        /\ ravel lat !! (j * np_len (coordX c) + i)%nat = Some y.
Proof.
  intros HX HY Hc WX WY.
  destruct (vector_shape _ HX WX) as [SX LX].
  assert (H1 : atleast_1d (coordX c) = coordX c).
  { unfold atleast_1d. rewrite SX. reflexivity. }
  exists (arr_map wrap180 (coordX c)).
  unfold make_tree. rewrite np_call_wrap_lon180, H1. simpl.
  unfold ndim at 1. simpl. fold (ndim (coordX c)).
  rewrite HX, HY, Hc. simpl.
  eexists _, _, _. split; [reflexivity |]. split; [reflexivity |].
  intros i j x y Hi Hj. unfold py_zip, ravel. simpl.
  rewrite <- LX, <- (length_map wrap180 (data (coordX c))).
  set (l := map wrap180 (data (coordX c))) in *.
  assert (Hpt : zip (mjoin (replicate (length (data (coordY c))) l))
                    (mjoin (map (replicate (length l)) (data (coordY c))))
                !! (j * length l + i)%nat = Some (x, y)).
  { rewrite zip_mesh. apply (lookup_mesh (fun x y => (x, y))); assumption. }
  split; [exact Hpt |].
  apply lookup_zip_with_Some in Hpt as (x' & y' & Heq & Hx' & Hy').
  injection Heq as -> ->. split; assumption.
Qed.

Lemma make_tree_mesh_order_witness :
  exists (t : KDTree) (lon lat : ndarray),
    make_tree sample_cube_1d = Ok (t, lon, lat)
    /\ tree_data t !! 3%nat = Some (1, 1)%Q.
Proof.
  destruct (make_tree_mesh_order sample_cube_1d eq_refl eq_refl eq_refl eq_refl eq_refl)
    as (w & t & lon & lat & Hw & Ht & Hpt).
  exists t, lon, lat. split; [exact Ht |].
  injection Hw as <-.
  exact (proj1 (Hpt 1%nat 1%nat 1%Q 1%Q eq_refl eq_refl)).
Defined.

(** [np.unravel_index] against a mesh shape [(ny, nx)] undoes the
    flattening: the identifier [n] is turned into the row and the column
    with [n = row * nx + column], both inside the mesh. *)
Theorem unravel_index_mesh_inverse (inds : list nat) (ny nx : nat) :
  Forall (fun n => (n < ny * nx)%nat) inds ->
  exists rows cols : list nat,
    unravel_index inds [ny; nx] = Ok [rows; cols]
    /\ length rows = length inds
    /\ length cols = length inds
    /\ forall (p n r col : nat),
        inds !! p = Some n -> rows !! p = Some r -> cols !! p = Some col ->
        n = (r * nx + col)%nat /\ (r < ny)%nat /\ (col < nx)%nat.
Proof.
  intros H. eexists _, _. split; [apply unravel_mesh; exact H |].
  rewrite !length_map. split; [reflexivity |]. split; [reflexivity |].
  intros p n r col Hn Hr Hc.
  rewrite Forall_forall in H.
  assert (Hlt : (n < ny * nx)%nat) by (apply H, list_elem_of_lookup; eauto).
  change (map ?f inds) with (f <$> inds) in Hr, Hc.
  rewrite list_lookup_fmap, Hn in Hr, Hc. simpl in Hr, Hc.
  injection Hr as <-. injection Hc as <-.
  assert (Hx : nx <> 0%nat) by (intros ->; lia).
  split; [| split].
  - rewrite (Nat.div_mod_eq n nx) at 1. lia.
  - apply Nat.Div0.div_lt_upper_bound. lia.
  - apply Nat.mod_upper_bound, Hx.
Qed.

Lemma unravel_index_mesh_inverse_witness :
  exists rows cols : list nat,
    unravel_index [5; 0; 3]%nat [2; 3]%nat = Ok [rows; cols]
    /\ rows = [1; 0; 1]%nat /\ cols = [2; 0; 0]%nat.
Proof.
  assert (H : Forall (fun n => (n < 2 * 3)%nat) [5; 0; 3]%nat)
    by (repeat constructor; lia).
  destruct (unravel_index_mesh_inverse [5; 0; 3]%nat 2 3 H) as (rows & cols & H1 & _).
  exists rows, cols. split; [exact H1 |].
  injection H1 as <- <-. split; reflexivity.
Defined.

(** The other direction: the identifier of a row and a column comes back
    as that row and that column. *)
Lemma unravel_one_mesh (ny nx r col : nat) :
  (col < nx)%nat -> unravel_one (r * nx + col)%nat [ny; nx] = [r; col].
Proof.
  intros Hc. unfold unravel_one, prod_list. cbn [foldr].
  rewrite Nat.mul_1_r, Nat.div_1_r.
  rewrite Nat.div_add_l by lia. rewrite Nat.div_small by exact Hc.
  rewrite (Nat.add_comm (r * nx)), Nat.Div0.mod_add, Nat.mod_small by exact Hc.
  f_equal. lia.
Qed.

(** ** What the search returns *)

Lemma select_mask_true {A} (f : A -> bool) (l : list A) :
  Forall (fun x => f x = true) (select (map f l) l).
Proof.
  induction l as [| x l IH]; simpl; [constructor |].
  destruct (f x) eqn:E; [constructor; assumption | exact IH].
Qed.

Lemma candidates_in_reach (c : cube) (t : KDTree) (xi yi : Q) (k : nat) (max_dist : Q)
    (cands : list (xreal * (nat * nat))) :
  candidates c t xi yi k max_dist = Ok cands ->
  Forall (fun cand => xle_Q (fst cand) max_dist = true) cands.
Proof.
  unfold candidates, KDTree_query.
  destruct (k =? 0)%nat; [discriminate |]. simpl.
  destruct (length _ =? 0)%nat; [discriminate |].
  match goal with |- context [rbind ?m _] => destruct m as [[i j] | e] end;
    simpl; [| discriminate].
  intros [= <-].
  apply (Forall_zip_fst (fun d => xle_Q d max_dist = true)), select_mask_true.
Qed.

Lemma passes_of_series (c : cube) (min_var : Q) (idx : nat * nat) (s : series) :
  cube_getitem c idx = Ok s ->
  passes c min_var idx = Some (xge_Q (np_std (filled 0 (masked_invalid s))) min_var).
Proof. intros H. unfold passes. rewrite H. reflexivity. Qed.

(** The loop read backwards: what was returned tells how far the loop
    went. *)
Lemma walk_inv (c : cube) (min_var : Q) (cands : list (xreal * (nat * nat)))
    (cur r : found) :
  walk c min_var cands cur = Ok r ->
  (cands = [] /\ r = cur)
  \/ exists (pre : list (xreal * (nat * nat))) (d : xreal) (idx : nat * nat)
            (post : list (xreal * (nat * nat))) (s : series),
       cands = pre ++ (d, idx) :: post
       /\ Forall (fun cand => passes c min_var (snd cand) = Some false) pre
       /\ cube_getitem c idx = Ok s
       /\ r = (Some s, Some d, Some idx)
       /\ (passes c min_var idx = Some true
           \/ (passes c min_var idx = Some false /\ post = [])).
Proof.
  revert cur. induction cands as [| [d idx] rest IH]; intros cur; simpl.
  - intros [= <-]. left. split; reflexivity.
  - destruct (cube_getitem c idx) as [s | e] eqn:Hs; simpl; [| discriminate].
    pose proof (passes_of_series c min_var idx s Hs) as Hp.
    destruct (xge_Q _ _) eqn:Hv.
    + intros [= <-]. right. exists [], d, idx, rest, s.
      repeat split; [constructor | exact Hs | left; exact Hp].
    + intros Hw. right.
      destruct (IH _ Hw) as [[-> ->] | (pre & d' & idx' & post & s' & -> & Hpre & Hs' & -> & Hlast)].
      * exists [], d, idx, [], s.
        repeat split; [constructor | exact Hs | right; split; [exact Hp | reflexivity]].
      * exists ((d, idx) :: pre), d', idx', post, s'.
        repeat split; [constructor; [exact Hp | exact Hpre] | exact Hs' | exact Hlast].
Qed.

(** X7: whenever [get_nearest_water] returns, either nothing was within
    reach and the three values are [None], or the three values are set
    together: the series is the data of the cube at the cell returned and
    the distance returned is within [max_dist]. *)
Theorem nearest_water_result (c : cube) (t : KDTree) (xi yi : Q)
    (k : nat) (max_dist min_var : Q) (r : found) :
  get_nearest_water c t xi yi k max_dist min_var = Ok r ->
  (r = (None, None, None) /\ candidates c t xi yi k max_dist = Ok [])
  \/ exists (s : series) (d : xreal) (idx : nat * nat),
       r = (Some s, Some d, Some idx)
       /\ cube_getitem c idx = Ok s
       /\ xle_Q d max_dist = true.
Proof.
  unfold get_nearest_water.
  destruct (candidates c t xi yi k max_dist) as [cands | e] eqn:Hc; simpl; [| discriminate].
  intros Hw. apply walk_inv in Hw
    as [[-> ->] | (pre & d & idx & post & s & -> & _ & Hs & -> & _)].
  - left. split; reflexivity.
  - right. exists s, d, idx. split; [reflexivity |]. split; [exact Hs |].
    apply candidates_in_reach in Hc. rewrite Forall_forall in Hc.
    apply (Hc (d, idx)). apply elem_of_app. right. apply list_elem_of_here.
Qed.

Lemma nearest_water_result_witness :
  exists (s : series) (d : xreal) (idx : nat * nat),
    get_nearest_water sample_cube sample_tree 0.1 0.2 default_k 1 default_min_var
    = Ok (Some s, Some d, Some idx)
    /\ xle_Q d 1 = true.
Proof.
  destruct (nearest_water_result sample_cube sample_tree 0.1 0.2 default_k 1
              default_min_var
              (Some [Num 0; Num 1; Num 2]%Q, Some (Root 0.8500), Some (0, 1)%nat)
              eq_refl)
    as [[H _] | (s & d & idx & H & _ & Hd)].
  - discriminate H.
  - exists s, d, idx. split; [rewrite <- H; reflexivity | exact Hd].
Defined.

(** X8: a candidate is returned only after every nearer candidate within
    reach failed the test; it passes the test itself, unless it is the
    last candidate within reach. *)
Theorem nearest_water_nearer_all_failed (c : cube) (t : KDTree) (xi yi : Q)
    (k : nat) (max_dist min_var : Q) (s : series) (d : xreal) (idx : nat * nat) :
  get_nearest_water c t xi yi k max_dist min_var = Ok (Some s, Some d, Some idx) ->
  exists pre post : list (xreal * (nat * nat)),
    candidates c t xi yi k max_dist = Ok (pre ++ (d, idx) :: post)
    /\ Forall (fun cand => passes c min_var (snd cand) = Some false
                           /\ xle (fst cand) d) pre
    /\ (passes c min_var idx = Some true
        \/ (passes c min_var idx = Some false /\ post = [])).
Proof.
  unfold get_nearest_water.
  destruct (candidates c t xi yi k max_dist) as [cands | e] eqn:Hc; simpl; [| discriminate].
  intros Hw. apply walk_inv in Hw
    as [[_ [=]] | (pre & d' & idx' & post & s' & -> & Hpre & _ & [= -> -> ->] & Hlast)].
  exists pre, post. split; [reflexivity |]. split; [| exact Hlast].
  apply candidates_sorted in Hc.
  apply Forall_forall. intros cand Hin. split.
  - rewrite Forall_forall in Hpre. apply Hpre, Hin.
  - apply (StronglySorted_app_1_elem_of cand_le pre ((d', idx') :: post) cand (d', idx') Hc Hin).
    apply list_elem_of_here.
Qed.

Lemma nearest_water_nearer_all_failed_witness :
  exists pre post : list (xreal * (nat * nat)),
    candidates sample_cube sample_tree 0.1 0.2 default_k 1
    = Ok (pre ++ (Root 0.8500, (0, 1)%nat) :: post)
    /\ Forall (fun cand => passes sample_cube default_min_var (snd cand) = Some false) pre.
Proof.
  destruct (nearest_water_nearer_all_failed sample_cube sample_tree 0.1 0.2 default_k 1
              default_min_var [Num 0; Num 1; Num 2]%Q (Root 0.8500) (0, 1)%nat eq_refl)
    as (pre & post & H & Hpre & _).
  exists pre, post. split; [exact H |].
  eapply Forall_impl; [exact Hpre |]. intros cand [Hc _]. exact Hc.
Defined.

(** ** Flat series *)

Lemma Qsum_const (l : list Q) (v : Q) :
  Forall (fun x => (x == v)%Q) l ->
  (Qsum l == inject_Z (Z.of_nat (length l)) * v)%Q.
Proof.
  induction 1 as [| x l Hx _ IH].
  - simpl. ring.
  - cbn [Qsum foldr length]. fold (Qsum l).
    rewrite Nat2Z.inj_succ, <- Z.add_1_r, inject_Z_plus, IH, Hx.
    change (inject_Z 1) with 1%Q. ring.
Qed.

Lemma mean_const (l : list Q) (v : Q) :
  l <> [] -> Forall (fun x => (x == v)%Q) l -> (mean l == v)%Q.
Proof.
  intros Hne Hl. unfold mean. rewrite (Qsum_const l v Hl).
  assert (Hn : ~ (inject_Z (Z.of_nat (length l)) == 0)%Q).
  { destruct l as [| x l]; [congruence |].
    cbn [length]. rewrite Nat2Z.inj_succ, <- Z.add_1_r, inject_Z_plus.
    change (inject_Z 1) with 1%Q.
    assert ((0 <= inject_Z (Z.of_nat (length l)))%Q)
      by (change 0%Q with (inject_Z 0); rewrite <- Zle_Qle; lia).
    lra. }
  field. exact Hn.
Qed.

Lemma variance_const (l : list Q) (v : Q) :
  l <> [] -> Forall (fun x => (x == v)%Q) l -> (variance l == 0)%Q.
Proof.
  intros Hne Hl. unfold variance.
  pose proof (mean_const l v Hne Hl) as Hm.
  apply mean_const.
  - destruct l; [congruence | discriminate].
  - apply Forall_map. eapply Forall_impl; [exact Hl |].
    intros x Hx. simpl. rewrite Hx, Hm. ring.
Qed.

(** X9: with a positive [min_var], a cell whose series is not empty and
    holds nothing but invalid values, masked values and zeros fails the
    test of the loop: the zero-filled series is zero throughout. *)
Theorem zero_series_rejected (c : cube) (min_var : Q) (idx : nat * nat) (s : series) :
  (0 < min_var)%Q ->
  cube_getitem c idx = Ok s ->
  s <> [] ->
  Forall (fun x => (x == 0)%Q) (zero_filled s) ->
  passes c min_var idx = Some false.
Proof.
  intros Hm Hs Hne Hflat. rewrite (passes_of_series c min_var idx s Hs).
  rewrite filled_masked_invalid. f_equal.
  destruct (zero_filled s) as [| x l] eqn:E.
  - destruct s; [congruence | discriminate E].
  - assert (Hv : (variance (x :: l) == 0)%Q)
      by (apply (variance_const _ 0); [discriminate | exact Hflat]).
    unfold np_std, xge_Q.
    rewrite (Qle_bool_false_lt min_var 0 Hm). simpl.
    apply Qle_bool_false_lt. rewrite Hv. nra.
Qed.

Lemma zero_series_rejected_witness :
  passes sample_cube default_min_var (1, 0)%nat = Some false.
Proof.
  apply (zero_series_rejected sample_cube default_min_var (1, 0)%nat
           [Invalid; Num 0; Masked]%Q).
  - reflexivity.
  - reflexivity.
  - discriminate.
  - repeat constructor.
Defined.

(** ** The distance returned *)

Lemma select_fmap {A B} (f : A -> B) (m : mask) (l : list A) :
  select m (map f l) = map f (select m l).
Proof.
  revert l. induction m as [| b m IH]; intros [| x l]; simpl; try reflexivity.
  destruct b; simpl; rewrite IH; reflexivity.
Qed.

Lemma select_subset {A} (m : mask) (l : list A) (x : A) :
  x ∈ select m l -> x ∈ l.
Proof.
  revert l. induction m as [| b m IH]; intros [| y l]; simpl; try (intros H; inversion H; fail).
  destruct b.
  - rewrite !elem_of_cons. intros [-> | H]; [left; reflexivity | right; apply IH, H].
  - intros H. apply elem_of_cons. right. apply IH, H.
Qed.

Lemma all_hits_distance (t : KDTree) (x : Q * Q) :
  Forall (fun h => exists p, tree_data t !! snd h = Some p /\ fst h = sqdist x p)
         (all_hits t x).
Proof.
  apply sort_hits_Forall, Forall_forall. intros e He.
  apply elem_of_lookup_imap_1 in He as (i & p & -> & Hi). simpl.
  exists p. split; [exact Hi | reflexivity].
Qed.

(** On a grid with two dimensional coordinates the candidates are the
    hits within reach, each with its distance, row and column. *)
Lemma candidates_mesh_hits (c : cube) (t : KDTree) (xi yi : Q) (k : nat) (max_dist : Q)
    (ny nx : nat) :
  shape (coordX c) = [ny; nx] ->
  tree_n t = (ny * nx)%nat ->
  k <> 0%nat ->
  candidates c t xi yi k max_dist
  = Ok (map (fun h => (Root (fst h), ((snd h / nx)%nat, (snd h mod nx)%nat)))
            (select (map (fun h => xle_Q (Root (fst h)) max_dist)
                         (take k (all_hits t (xi, yi))))
                    (take k (all_hits t (xi, yi))))).
Proof.
  intros HX Ht Hk. unfold candidates, KDTree_query.
  apply Nat.eqb_neq in Hk. rewrite Hk. simpl rbind.
  set (hits := take k (all_hits t (xi, yi))).
  rewrite length_app, length_map, length_replicate.
  replace (length hits + (k - length hits) =? 0)%nat with false.
  2:{ symmetry. apply Nat.eqb_neq. apply Nat.eqb_neq in Hk. lia. }
  cbv zeta.
  rewrite !(survivors_beyond_size max_dist hits) by (rewrite ?length_map; reflexivity).
  rewrite (map_map (fun h => Root (fst h)) (fun d => xle_Q d max_dist)).
  set (m := map _ hits).
  rewrite !select_fmap.
  assert (Hin : Forall (fun i => (i < ny * nx)%nat) (map snd (select m hits))).
  { apply Forall_map, select_Forall, Forall_take. rewrite <- Ht. apply all_hits_in_tree. }
  unfold ndim. rewrite HX. simpl andb. cbv iota.
  rewrite (unravel_mesh _ _ _ Hin). simpl.
  unfold py_zip. rewrite !map_map, zip_map_map, zip_map_map. reflexivity.
Qed.

(** X10: on a grid with two dimensional coordinates the cell returned is
    inside the mesh, and the distance returned is the Euclidean distance
    from the query point to the point of the index that belongs to this
    cell. *)
Theorem nearest_water_distance_of_cell (c : cube) (t : KDTree) (xi yi : Q)
    (k : nat) (max_dist min_var : Q) (ny nx : nat)
    (s : series) (d : xreal) (i j : nat) :
  shape (coordX c) = [ny; nx] ->
  tree_n t = (ny * nx)%nat ->
  get_nearest_water c t xi yi k max_dist min_var = Ok (Some s, Some d, Some (i, j)) ->
  exists p : Q * Q,
    tree_data t !! (i * nx + j)%nat = Some p
    /\ d = Root (sqdist (xi, yi) p)
    /\ (i < ny)%nat /\ (j < nx)%nat.
Proof.
  intros HX Ht Hret.
  assert (Hk : k <> 0%nat).
  { intros ->. vm_compute in Hret. discriminate Hret. }
  unfold get_nearest_water in Hret.
  destruct (candidates c t xi yi k max_dist) as [cands | e] eqn:Hc; simpl in Hret;
    [| discriminate Hret].
  apply walk_inv in Hret
    as [[_ [=]] | (pre & d' & idx' & post & s' & -> & _ & _ & [= <- <- <-] & _)].
  rewrite (candidates_mesh_hits c t xi yi k max_dist ny nx HX Ht Hk) in Hc.
  injection Hc as Hc.
  assert (Hin : (d, (i, j)) ∈ pre ++ (d, (i, j)) :: post)
    by (apply elem_of_app; right; apply list_elem_of_here).
  rewrite <- Hc in Hin.
  apply list_elem_of_In, in_map_iff in Hin as (h & Hh & Hsel).
  apply list_elem_of_In, select_subset in Hsel.
  apply elem_of_take in Hsel as (pos & Hpos & _).
  pose proof (all_hits_distance t (xi, yi)) as Hd.
  pose proof (all_hits_in_tree t (xi, yi)) as Hn.
  rewrite Forall_forall in Hd, Hn.
  assert (Hall : h ∈ all_hits t (xi, yi)) by (apply list_elem_of_lookup; eauto).
  destruct (Hd h Hall) as (p & Hp & Hf). specialize (Hn h Hall). simpl in Hn.
  injection Hh as <- <- <-.
  rewrite Ht in Hn.
  assert (Hx : nx <> 0%nat) by (intros ->; lia).
  exists p. split; [| split; [| split]].
  - replace (snd h / nx * nx + snd h mod nx)%nat with (snd h); [exact Hp |].
    rewrite (Nat.div_mod_eq (snd h) nx) at 1. lia.
  - rewrite Hf. reflexivity.
  - apply Nat.Div0.div_lt_upper_bound. lia.
  - apply Nat.mod_upper_bound, Hx.
Qed.

Lemma nearest_water_distance_of_cell_witness :
  exists p : Q * Q,
    tree_data sample_tree !! 1%nat = Some p
    /\ Root 0.8500 = Root (sqdist (0.1, 0.2)%Q p).
Proof.
  destruct (nearest_water_distance_of_cell sample_cube sample_tree 0.1 0.2 default_k 1
              default_min_var 2 2 [Num 0; Num 1; Num 2]%Q (Root 0.8500) 0 1
              eq_refl eq_refl eq_refl)
    as (p & Hp & Hd & _).
  exists p. split; [exact Hp | exact Hd].
Defined.

(** ** Grids on which the search stops *)

(** X11: a negative [max_dist] puts every point out of reach: for a
    neighbour count of two or more, on an unstructured grid and on a grid
    with two dimensional coordinates, the three initial values are
    returned, whatever the query point. *)
Theorem nearest_water_negative_reach (c : cube) (t : KDTree) (xi yi : Q)
    (k : nat) (max_dist min_var : Q) :
  (max_dist < 0)%Q ->
  (2 <= k)%nat ->
  (ndim (coordX c) = 1%nat /\ cube_ndim c = 2%nat) \/ ndim (coordX c) = 2%nat ->
  get_nearest_water c t xi yi k max_dist min_var = Ok (None, None, None).
Proof.
  intros Hm Hk Hgrid.
  eapply nearest_water_nothing_in_reach; [| | exact Hgrid].
  - unfold KDTree_query.
    assert (E : (k =? 0)%nat = false) by (apply Nat.eqb_neq; lia).
    rewrite E. reflexivity.
  - apply Forall_forall. intros [q | |] _; simpl; try reflexivity.
    rewrite (Qle_bool_false_lt 0 max_dist Hm). reflexivity.
Qed.

Lemma nearest_water_negative_reach_witness :
  get_nearest_water sample_cube sample_tree 0 0 default_k (-1) default_min_var
  = Ok (None, None, None).
Proof.
  apply nearest_water_negative_reach.
  - reflexivity.
  - unfold default_k. lia.
  - right. reflexivity.
Defined.

Lemma nearest_water_unstructured_raises_witness :
  get_nearest_water sample_cube_nodes sample_tree_nodes 0.99 0
    default_k default_max_dist default_min_var
  = Raise (IndexError "More slices requested than dimensions").
Proof.
  apply (nearest_water_unstructured_raises sample_cube_nodes sample_tree_nodes 0.99 0
           default_k default_max_dist default_min_var (Root 0.0001, (1, 1)%nat) []).
  - reflexivity.
  - vm_compute. reflexivity.
Defined.

(** X13: the index that [make_tree] builds for a structured grid given by
    coordinate vectors cannot be searched with [get_nearest_water]: for a
    neighbour count of two or more every query on the same cube raises a
    [ValueError]. *)
Theorem make_tree_then_search_raises (c : cube) :
  ndim (coordX c) = 1%nat ->
  cube_ndim c = 3%nat ->
  exists (t : KDTree) (lon lat : ndarray),
    make_tree c = Ok (t, lon, lat)
    /\ forall (xi yi : Q) (k : nat) (max_dist min_var : Q),
        (2 <= k)%nat ->
        exists msg : string,
          get_nearest_water c t xi yi k max_dist min_var = Raise (ValueError msg).
Proof.
  intros HX Hc.
  destruct (make_tree_lon_range c) as (t & lon & lat & Ht & _).
  exists t, lon, lat. split; [exact Ht |].
  intros xi yi k max_dist min_var _.
  apply nearest_water_vectors_raise; [exact HX | rewrite Hc; discriminate].
Qed.

Lemma make_tree_then_search_raises_witness :
  exists (t : KDTree) (msg : string),
    get_nearest_water sample_cube_1d t 0 0 default_k default_max_dist default_min_var
    = Raise (ValueError msg).
Proof.
  destruct (make_tree_then_search_raises sample_cube_1d eq_refl eq_refl)
    as (t & lon & lat & _ & H).
  destruct (H 0%Q 0%Q default_k default_max_dist default_min_var) as [msg Hmsg].
  - unfold default_k. lia.
  - exists t, msg. exact Hmsg.
Defined.

(** ** [service_urls] *)

Lemma service_urls_loop (ss : string) (records : list (string * csw_record))
    (acc : list string) :
  foldl (fun urls kr =>
           let '(key, rec) := kr in
           let url := next_url ss (references rec) in
           match url with
           | Some u => urls ++ [u]
           | None => urls
           end)
        acc records
  = acc ++ omap (fun kr => next_url ss (references (snd kr))) records.
Proof.
  revert acc. induction records as [| [key rec] records IH]; intros acc; simpl.
  - rewrite app_nil_r. reflexivity.
  - rewrite IH. destruct (next_url ss (references rec)); simpl; [| reflexivity].
    rewrite <- app_assoc. reflexivity.
Qed.

Lemma service_urls_omap (records : list (string * csw_record)) (service : string) :
  service_urls records service
  = omap (fun kr => next_url (String.append service_prefix service) (references (snd kr)))
         records.
Proof. unfold service_urls. rewrite service_urls_loop. reflexivity. Qed.

Lemma next_url_sound (ss : string) (refs : list reference) (u : string) :
  next_url ss refs = Some u ->
  exists d : reference, d ∈ refs /\ ref_scheme d = Some ss /\ ref_url d = Some u.
Proof.
  induction refs as [| d rest IH]; simpl; [discriminate |].
  destruct (scheme_is ss d) eqn:E.
  - intros Hu. exists d. split; [apply list_elem_of_here |]. split; [| exact Hu].
    unfold scheme_is in E. destruct (ref_scheme d) as [s |]; [| discriminate].
    apply String.eqb_eq in E. rewrite E. reflexivity.
  - intros Hu. destruct (IH Hu) as (d' & Hin & H).
    exists d'. split; [apply list_elem_of_further, Hin | exact H].
Qed.

Lemma next_url_first (ss : string) (pre : list reference) (d : reference)
    (rest : list reference) :
  Forall (fun d' => scheme_is ss d' = false) pre ->
  scheme_is ss d = true ->
  next_url ss (pre ++ d :: rest) = ref_url d.
Proof.
  intros Hpre Hd. induction Hpre as [| d' pre Hd' _ IH]; simpl.
  - rewrite Hd. reflexivity.
  - rewrite Hd'. exact IH.
Qed.

Lemma omap_cons {A B} (f : A -> option B) (x : A) (l : list A) :
  omap f (x :: l) = match f x with Some y => y :: omap f l | None => omap f l end.
Proof. reflexivity. Qed.

Lemma length_omap_le {A B} (f : A -> option B) (l : list A) :
  (length (omap f l) <= length l)%nat.
Proof.
  induction l as [| x l IH]; [reflexivity |].
  rewrite omap_cons. destruct (f x); simpl; lia.
Qed.

(** X14: the urls of a catalogue are those of its parts, in order: the
    records are handled one by one, independently. *)
Theorem service_urls_app (r1 r2 : list (string * csw_record)) (service : string) :
  service_urls (r1 ++ r2) service = service_urls r1 service ++ service_urls r2 service.
Proof. rewrite !service_urls_omap. apply omap_app. Qed.

(** X15: every url returned is the url of a reference of one of the
    records whose scheme is the service type asked for, and there is at
    most one url per record. *)
Theorem service_urls_sound (records : list (string * csw_record)) (service u : string) :
  (length (service_urls records service) <= length records)%nat
  /\ (u ∈ service_urls records service ->
      exists (key : string) (rec : csw_record) (d : reference),
        (key, rec) ∈ records
        /\ d ∈ references rec
        /\ ref_scheme d = Some (String.append service_prefix service)
        /\ ref_url d = Some u).
Proof.
  rewrite service_urls_omap. split.
  - apply length_omap_le.
  - intros Hu. apply list_elem_of_omap in Hu as ([key rec] & Hin & Hnext).
    apply next_url_sound in Hnext as (d & Hd & Hs & Hurl).
    exists key, rec, d. repeat split; assumption.
Qed.

Lemma service_urls_sound_witness :
  exists (key : string) (rec : csw_record) (d : reference),
    d ∈ references rec /\ ref_url d = Some "http://example.org/dap".
Proof.
  destruct (service_urls_sound
              [("a", MkRecord [MkReference (Some "urn:x-esri:specification:ServiceType:odp:url")
                                           (Some "http://example.org/dap")])]
              default_service "http://example.org/dap") as [_ H].
  destruct H as (key & rec & d & _ & Hd & _ & Hu).
  - vm_compute. apply list_elem_of_here.
  - exists key, rec, d. split; [exact Hd | exact Hu].
Defined.

(** X16: only the first reference of the service type counts.  A record
    gives the url of that reference, and gives nothing when that url is
    [None], whatever the references after it hold. *)
Theorem service_urls_first_match (before after : list (string * csw_record))
    (key service : string) (pre : list reference) (d : reference)
    (rest : list reference) :
  Forall (fun d' => scheme_is (String.append service_prefix service) d' = false) pre ->
  scheme_is (String.append service_prefix service) d = true ->
  service_urls (before ++ (key, MkRecord (pre ++ d :: rest)) :: after) service
  = service_urls before service
    ++ match ref_url d with Some u => [u] | None => [] end
    ++ service_urls after service.
Proof.
  intros Hpre Hd.
  change (before ++ (key, MkRecord (pre ++ d :: rest)) :: after)
    with (before ++ [(key, MkRecord (pre ++ d :: rest))] ++ after).
  rewrite !service_urls_omap, !omap_app. f_equal. f_equal.
  rewrite omap_cons. cbn [snd references omap list_omap].
  rewrite (next_url_first _ pre d rest Hpre Hd).
  destruct (ref_url d); reflexivity.
Qed.

Lemma service_urls_first_match_witness :
  service_urls
    [("a", MkRecord [MkReference (Some "other") (Some "http://example.org/sos");
                     MkReference (Some "urn:x-esri:specification:ServiceType:odp:url") None;
                     MkReference (Some "urn:x-esri:specification:ServiceType:odp:url")
                                 (Some "http://example.org/dap")])]
    default_service
  = [].
Proof.
  apply (service_urls_first_match [] [] "a" default_service
           [MkReference (Some "other") (Some "http://example.org/sos")]
           (MkReference (Some "urn:x-esri:specification:ServiceType:odp:url") None)
           [MkReference (Some "urn:x-esri:specification:ServiceType:odp:url")
                        (Some "http://example.org/dap")]).
  - repeat constructor.
  - reflexivity.
Defined.

(** X17: a record without a reference of the service type adds nothing. *)
Theorem service_urls_no_match (records : list (string * csw_record)) (service : string) :
  Forall (fun kr => Forall (fun d => ref_scheme d
                                     <> Some (String.append service_prefix service))
                           (references (snd kr))) records ->
  service_urls records service = [].
Proof.
  intros H. rewrite service_urls_omap.
  induction H as [| [key rec] records Hrec _ IH]; [reflexivity |].
  rewrite omap_cons, IH. cbn [snd].
  assert (Hn : next_url (String.append service_prefix service) (references rec) = None).
  { simpl in Hrec. induction Hrec as [| d rest Hd _ IHr]; simpl; [reflexivity |].
    unfold scheme_is. destruct (ref_scheme d) as [s |] eqn:Es; [| exact IHr].
    destruct (String.eqb s _) eqn:E; [| exact IHr].
    apply String.eqb_eq in E. subst s. congruence. }
  rewrite Hn. reflexivity.
Qed.

Lemma service_urls_no_match_witness :
  service_urls [("a", MkRecord [MkReference None (Some "http://example.org/x")])]
               default_service
  = [].
Proof.
  apply service_urls_no_match. repeat constructor. simpl. discriminate.
Defined.

(** ** [get_coordinates] *)

Lemma corner_ok (bounding_box : list (list Q)) (p q : nat) (point : list Q) (v : Q) :
  bounding_box !! p = Some point -> point !! q = Some v ->
  corner bounding_box p q = Ok v.
Proof.
  intros Hp Hq. unfold corner, list_getitem. rewrite Hp. simpl. rewrite Hq. reflexivity.
Qed.

Lemma get_coordinates_of_corners (bounding_box : list (list Q)) (x0 y0 x1 y1 : Q) :
  box_corners bounding_box x0 y0 x1 y1 ->
  get_coordinates bounding_box true
  = Ok (Some [[y0; x0]; [y0; x1]; [y1; x1]; [y1; x0]; [y0; x0]]).
Proof.
  intros (p0 & p1 & H0 & H1 & Hx0 & Hy0 & Hx1 & Hy1). unfold get_coordinates.
  rewrite (corner_ok _ _ _ _ _ H0 Hy0), (corner_ok _ _ _ _ _ H0 Hx0),
    (corner_ok _ _ _ _ _ H1 Hx1), (corner_ok _ _ _ _ _ H1 Hy1).
  reflexivity.
Qed.

(** X18: for a box the result is a closed ring of five vertices, the
    first repeated at the end, each vertex written latitude first while
    the corners of the argument are written longitude first. *)
Theorem get_coordinates_ring (bounding_box : list (list Q)) (x0 y0 x1 y1 : Q) :
  box_corners bounding_box x0 y0 x1 y1 ->
  exists ring : list (list Q),
    get_coordinates bounding_box true = Ok (Some ring)
    /\ ring = [[y0; x0]; [y0; x1]; [y1; x1]; [y1; x0]; [y0; x0]]
    /\ length ring = 5%nat
    /\ head ring = last ring.
Proof.
  intros H. eexists. split; [apply get_coordinates_of_corners, H |].
  repeat split; reflexivity.
Qed.

Lemma get_coordinates_ring_witness :
  get_coordinates [[-87; 24]; [-74; 36]]%Q true
  = Ok (Some [[24; -87]; [24; -74]; [36; -74]; [36; -87]; [24; -87]]%Q).
Proof.
  destruct (get_coordinates_ring [[-87; 24]; [-74; 36]]%Q (-87) 24 (-74) 36)
    as (ring & H & -> & _).
  - exists [-87; 24]%Q, [-74; 36]%Q. repeat split; reflexivity.
  - exact H.
Defined.

(** X19: for a box the function returns exactly when the argument has two
    corners of two coordinates each; otherwise it raises an [IndexError].
    When the type is not the box nothing of the argument is read and the
    result is [None]. *)
Theorem get_coordinates_defined (bounding_box : list (list Q)) :
  ((exists ring, get_coordinates bounding_box true = Ok ring)
   <-> exists x0 y0 x1 y1 : Q, box_corners bounding_box x0 y0 x1 y1)
  /\ ((forall x0 y0 x1 y1 : Q, ~ box_corners bounding_box x0 y0 x1 y1) ->
      get_coordinates bounding_box true = Raise (IndexError "list index out of range"))
  /\ get_coordinates bounding_box false = Ok None.
Proof.
  assert (Hcases :
    (exists x0 y0 x1 y1 : Q, box_corners bounding_box x0 y0 x1 y1)
    \/ get_coordinates bounding_box true = Raise (IndexError "list index out of range")).
  { destruct bounding_box as [| [| x0 [| y0 e0]] [| [| x1 [| y1 e1]] rest]];
      try (right; reflexivity).
    left. exists x0, y0, x1, y1, (x0 :: y0 :: e0), (x1 :: y1 :: e1).
    repeat split; reflexivity. }
  split; [| split].
  - split.
    + intros [ring Hring]. destruct Hcases as [H | H]; [exact H |].
      rewrite H in Hring. discriminate Hring.
    + intros (x0 & y0 & x1 & y1 & H). eexists. apply get_coordinates_of_corners, H.
  - intros Hno. destruct Hcases as [(x0 & y0 & x1 & y1 & H) | H]; [| exact H].
    exfalso. exact (Hno x0 y0 x1 y1 H).
  - reflexivity.
Qed.

Lemma get_coordinates_defined_witness :
  get_coordinates [[-87; 24]; [-74]]%Q true = Raise (IndexError "list index out of range").
Proof.
  apply (proj1 (proj2 (get_coordinates_defined [[-87; 24]; [-74]]%Q))).
  intros x0 y0 x1 y1 (p0 & p1 & _ & H1 & _ & _ & _ & Hy1).
  injection H1 as <-. discriminate Hy1.
Defined.

(** ** [get_coops_longname] *)

(** X20: when the service describes no long name, what is returned for a
    station identifier of two characters or more is its first character
    alone, not the identifier. *)
Theorem coops_longname_fallback (station : string) :
  (2 <= String.length station)%nat ->
  exists ch : Ascii.ascii,
    String.get 0 station = Some ch
    /\ get_coops_longname [] station = Return (String ch EmptyString)
    /\ get_coops_longname [] station <> Return station.
Proof.
  intros Hlen. destruct station as [| ch [| ch' rest]]; simpl in Hlen; try lia.
  exists ch. split; [reflexivity |]. split; [reflexivity |].
  simpl. intros H. discriminate H.
Qed.

Lemma coops_longname_fallback_witness :
  get_coops_longname [] "8651370" <> Return "8651370".
Proof.
  destruct (coops_longname_fallback "8651370") as (ch & _ & _ & H).
  - simpl. lia.
  - exact H.
Defined.

(** ** [dateRange] *)

(** X21: [dateRange] returns for the constraints ['overlaps'] and
    ['within'] only; with any other constraint the two filters are never
    bound and the return statement raises. *)
Theorem dateRange_constraints (start_date stop_date constraint : string) :
  ((exists r, dateRange start_date stop_date constraint = Return r)
   <-> (constraint = "overlaps" \/ constraint = "within"))
  /\ (constraint <> "overlaps" -> constraint <> "within" ->
      dateRange start_date stop_date constraint = Throw (UnboundLocalError "start")).
Proof.
  unfold dateRange.
  destruct (String.eqb constraint "overlaps") eqn:E1.
  - apply String.eqb_eq in E1. split.
    + split; [intros _; left; exact E1 | intros _; eexists; reflexivity].
    + intros H. contradiction.
  - destruct (String.eqb constraint "within") eqn:E2.
    + apply String.eqb_eq in E2. split.
      * split; [intros _; right; exact E2 | intros _; eexists; reflexivity].
      * intros _ H. contradiction.
    + apply String.eqb_neq in E1, E2. split.
      * split; [intros [r Hr]; discriminate Hr | intros [H | H]; contradiction].
      * intros _ _. reflexivity.
Qed.

Lemma dateRange_constraints_witness :
  dateRange "1900-01-01" "2100-01-01" "intersects" = Throw (UnboundLocalError "start").
Proof.
  apply (proj2 (dateRange_constraints "1900-01-01" "2100-01-01" "intersects"));
    discriminate.
Defined.

Lemma date_le_trans (a b c : string) : date_le a b -> date_le b c -> date_le a c.
Proof.
  unfold date_le. intros [-> | Hab] [-> | Hbc]; auto.
  right. eapply String_as_OT.lt_trans; eassumption.
Qed.

(** X22: for a record whose extent does not end before it begins, the
    two filters of ['within'] ask more than those of ['overlaps']: what
    passes the first pair passes the second, and the first pair holds
    exactly when the extent lies inside the range of dates. *)
Theorem dateRange_within_overlaps (start_date stop_date : string)
    (get : string -> string) :
  date_le (get "apiso:TempExtent_begin") (get "apiso:TempExtent_end") ->
  exists w1 w2 o1 o2 : fes_filter,
    dateRange start_date stop_date "within" = Return (w1, w2)
    /\ dateRange start_date stop_date "overlaps" = Return (o1, o2)
    /\ (filter_holds date_le get w1 /\ filter_holds date_le get w2
        <-> date_le start_date (get "apiso:TempExtent_begin")
            /\ date_le (get "apiso:TempExtent_end") stop_date)
    /\ (filter_holds date_le get w1 -> filter_holds date_le get w2 ->
        filter_holds date_le get o1 /\ filter_holds date_le get o2).
Proof.
  intros Hbe. eexists _, _, _, _.
  split; [reflexivity |]. split; [reflexivity |]. simpl. split; [tauto |].
  intros H1 H2. split.
  - eapply date_le_trans; [exact Hbe | exact H2].
  - eapply date_le_trans; [exact H1 | exact Hbe].
Qed.

Lemma dateRange_within_overlaps_witness :
  exists o1 o2 : fes_filter,
    dateRange "1900-01-01" "2100-01-01" "overlaps" = Return (o1, o2).
Proof.
  destruct (dateRange_within_overlaps "1900-01-01" "2100-01-01" (fun _ => "2014-07-01"))
    as (w1 & w2 & o1 & o2 & _ & H & _).
  - left. reflexivity.
  - exists o1, o2. exact H.
Defined.

(** ** [get_model_name] *)

(** X23: [get_model_name] returns exactly when the attributes hold a
    title, and the full name returned is that title: a missing title is a
    [KeyError], which the handler for [AttributeError] lets through, so
    the url never stands in for the full name.  The short name is the
    entry of [titles] for the url when there is one and nothing is
    printed; otherwise it is the title and one line is printed. *)
Theorem get_model_name_title (attributes : gmap string string) (url : string) :
  (attributes !! "title" = None ->
   get_model_name attributes url = Throw (KeyError "title"))
  /\ (forall title : string,
       attributes !! "title" = Some title ->
       exists (mod_name : string) (printed : list string),
         get_model_name attributes url = Return (mod_name, title, printed)
         /\ ((titles !! url = Some mod_name /\ printed = [])
             \/ (titles !! url = None /\ mod_name = title /\ length printed = 1%nat))).
Proof.
  unfold get_model_name. split.
  - intros ->. reflexivity.
  - intros title ->. destruct (titles !! url) as [m |] eqn:E.
    + exists m, []. split; [reflexivity |]. left. split; reflexivity.
    + eexists title, _. split; [reflexivity |]. right. repeat split; reflexivity.
Qed.

Lemma get_model_name_title_witness :
  get_model_name (<["institution" := "NCSU"]> ∅)
    "http://oos.soest.hawaii.edu/thredds/dodsC/hioos/tide_pac"
  = Throw (KeyError "title").
Proof.
  apply (proj1 (get_model_name_title (<["institution" := "NCSU"]> ∅)
                  "http://oos.soest.hawaii.edu/thredds/dodsC/hioos/tide_pac")).
  vm_compute. reflexivity.
Defined.

(** ** [inline_map] *)

Lemma count_char_append (ch : Ascii.ascii) (s1 s2 : string) :
  count_char ch (String.append s1 s2) = (count_char ch s1 + count_char ch s2)%nat.
Proof.
  induction s1 as [| x s1 IH]; simpl; [reflexivity |]. rewrite IH. lia.
Qed.

Lemma escape_quotes_clean (s : string) : count_char dquote (escape_quotes s) = 0%nat.
Proof.
  induction s as [| x s IH]; simpl; [reflexivity |].
  destruct (Ascii.eqb x dquote) eqn:E.
  - rewrite count_char_append, IH. reflexivity.
  - simpl. rewrite E, IH. reflexivity.
Qed.

Lemma length_escape_quotes (s : string) :
  String.length (escape_quotes s) = (String.length s + 5 * count_char dquote s)%nat.
Proof.
  induction s as [| x s IH]; [reflexivity |].
  cbn [escape_quotes count_char String.length].
  destruct (Ascii.eqb x dquote) eqn:E.
  - change (String.length (String.append "&quot;" (escape_quotes s)))
      with (6 + String.length (escape_quotes s))%nat.
    rewrite IH. lia.
  - cbn [String.length]. rewrite IH. lia.
Qed.

(** X24: whatever the page of the map holds, the markup returned has four
    double quotes, those around the two attribute values: no quote of the
    page ends the [srcdoc] attribute early.  Each quote of the page takes
    six characters. *)
Theorem inline_map_quotes (html : string) :
  count_char dquote (inline_map html) = 4%nat
  /\ count_char dquote (escape_quotes html) = 0%nat
  /\ String.length (escape_quotes html)
     = (String.length html + 5 * count_char dquote html)%nat.
Proof.
  split; [| split; [apply escape_quotes_clean | apply length_escape_quotes]].
  unfold inline_map, quoted.
  repeat (rewrite ?count_char_append; cbn [count_char]).
  rewrite ?count_char_append, escape_quotes_clean. reflexivity.
Qed.

(** ** How many cells are examined, and the trivial threshold *)

Lemma length_zip_le_l {A B} (l : list A) (k : list B) :
  (length (zip l k) <= length l)%nat.
Proof. rewrite length_zip. lia. Qed.

(** X25: the loop has at most [k] candidates to examine. *)
Theorem candidates_bounded (c : cube) (t : KDTree) (xi yi : Q) (k : nat) (max_dist : Q)
    (cands : list (xreal * (nat * nat))) :
  candidates c t xi yi k max_dist = Ok cands ->
  (length cands <= k)%nat.
Proof.
  unfold candidates, KDTree_query.
  destruct (k =? 0)%nat; [discriminate |]. simpl rbind.
  destruct (length _ =? 0)%nat; [discriminate |]. cbv zeta.
  match goal with |- context [rbind ?m _] => destruct m as [[i j] | e] end;
    simpl; [| discriminate].
  intros [= <-].
  etransitivity; [apply length_zip_le_l |].
  etransitivity; [apply length_select_le |].
  rewrite length_app, length_map, length_replicate, length_take. lia.
Qed.

Lemma candidates_bounded_witness :
  exists cands : list (xreal * (nat * nat)),
    candidates sample_cube sample_tree 0.1 0.2 2 1 = Ok cands
    /\ (length cands <= 2)%nat.
Proof.
  eexists. split; [vm_compute; reflexivity |].
  exact (candidates_bounded sample_cube sample_tree 0.1 0.2 2 1 _ eq_refl).
Defined.

(** X26: with a threshold that is zero or negative every series that is
    not empty passes, so the nearest candidate within reach is the one
    returned. *)
Theorem nearest_water_no_threshold (c : cube) (t : KDTree) (xi yi : Q)
    (k : nat) (max_dist min_var : Q)
    (d : xreal) (idx : nat * nat) (rest : list (xreal * (nat * nat))) (s : series) :
  (min_var <= 0)%Q ->
  candidates c t xi yi k max_dist = Ok ((d, idx) :: rest) ->
  cube_getitem c idx = Ok s ->
  s <> [] ->
  get_nearest_water c t xi yi k max_dist min_var = Ok (Some s, Some d, Some idx).
Proof.
  intros Hm Hc Hs Hne. unfold get_nearest_water. rewrite Hc. unfold rbind.
  apply (walk_accept c min_var d idx s rest (None, None, None) Hs).
  destruct s as [| x s]; [congruence |].
  unfold zero_filled. simpl. apply orb_true_iff. left. apply Qle_bool_iff, Hm.
Qed.

Lemma nearest_water_no_threshold_witness :
  get_nearest_water sample_cube sample_tree 0.1 0.2 default_k 1 0
  = Ok (Some [Num 1; Num 1; Num 1]%Q, Some (Root 0.0500), Some (0, 0)%nat).
Proof.
  apply (nearest_water_no_threshold sample_cube sample_tree 0.1 0.2 default_k 1 0
           (Root 0.0500) (0, 0)%nat
           [(Root 0.6500, (1, 0)%nat); (Root 0.8500, (0, 1)%nat)]).
  - vm_compute. congruence.
  - vm_compute. reflexivity.
  - reflexivity.
  - discriminate.
Defined.
